(** * urand: a seedable PRNG behind integer handles

  The repository has two layers.

  - [prng.zig], the Zig source that follows the first wrapper in
    [src/mod.ts]: a WebAssembly module holding a fixed array of 256 optional
    generators and five exports [create], [destroy], [nextU64], [nextF64],
    [nextU32Range] that address the generators by an [i32] handle.
  - [mod.ts] in its version with several modules, at the end of
    [unnamed/part_001]: a module-level array [instances] of instantiated
    WebAssembly modules and the class [Prng], a pair of an instance and a
    handle, with the static methods [create] and [createAsync].

  The generator itself is Zig's [std.Random.DefaultPrng]; the Zig standard
  library is not part of the repository.  The slot pool and the registry
  are therefore developed over an interface ([StdRandom]) with one field per
  library call made by [prng.zig]; the statements that are about the
  library itself are settled on an instance of it written after the
  library (module [Xoshiro256]). *)

From Stdlib Require Import ZArith QArith Lia List.
From stdpp Require Import base list.

Local Open Scope Z_scope.

(** ** Machine integers *)

Module U64.

Definition modulus : Z := 2 ^ 64.

(** Wrapping arithmetic on [u64] ([*%], and [<<] that drops the high bits). *)
Definition wrap (x : Z) : Z := x mod modulus.
Definition mul (a b : Z) : Z := wrap (a * b).
Definition add (a b : Z) : Z := wrap (a + b).
Definition shl (x k : Z) : Z := wrap (Z.shiftl x k).

(** [rotl(x, k)]: 64-bit left rotation, for [0 < k < 64]. *)
Definition rotl (x k : Z) : Z := Z.lor (shl x k) (Z.shiftr x (64 - k)).

Definition in_range (x : Z) : Prop := 0 <= x < modulus.

End U64.

(** ** The library interface used by [prng.zig]

  [prng.zig] calls [std.Random.DefaultPrng.init(s)],
  [prng.random().int(u64)], [prng.random().float(f64)] and
  [prng.random().intRangeAtMost(u32, min, max)].  Each call reads and
  rewrites the generator it is given through the pointer [*prng]; here it
  takes the generator and returns the result with the new generator.  An
  [f64] result is represented by the rational number it denotes. *)

Class StdRandom (G : Type) : Type := {
  init : Z -> G;
  int_u64 : G -> Z * G;
  float_f64 : G -> Q * G;
  intRangeAtMost_u32 : Z -> Z -> G -> Z * G
}.

(** ** The slot pool of [prng.zig] *)

(** [var instances: [MAX_INSTANCES]?DefaultPrng]: one entry per slot,
    [None] for [null].  The Zig array has exactly [MAX_INSTANCES] entries
    ([well_formed] below). *)
Abbreviation Pool G := (list (option G)).

Section SlotPool.

Context {G : Type} `{R : StdRandom G}.

Definition MAX_INSTANCES : nat := 256.

Definition well_formed (p : Pool G) : Prop := length p = MAX_INSTANCES.

(** [[_]?DefaultPrng{null} ** MAX_INSTANCES] *)
Definition fresh_pool : Pool G := replicate MAX_INSTANCES None.

(** The guard [handle >= 0 and handle < MAX_INSTANCES] of the exports. *)
Definition in_bounds (handle : Z) : bool :=
  (0 <=? handle) && (handle <? Z.of_nat MAX_INSTANCES).

(** The body of [for (0..MAX_INSTANCES) |i|] in [create], from index [i]
    with [n] iterations left; falling out of the loop returns [-1]. *)
Fixpoint create_loop (s : Z) (p : Pool G) (i n : nat) : Pool G * Z :=
  match n with
  | O => (p, -1)
  | S n' =>
      match p !! i with
      | Some None => (<[i := Some (init s)]> p, Z.of_nat i)
      | _ => create_loop s p (S i) n'
      end
  end.

(** [export fn create(s: u64) i32] *)
Definition create (s : Z) (p : Pool G) : Pool G * Z :=
  create_loop s p 0 MAX_INSTANCES.

(** [export fn destroy(handle: i32) void] *)
Definition destroy (handle : Z) (p : Pool G) : Pool G :=
  if in_bounds handle then <[Z.to_nat handle := None]> p else p.

(** [export fn nextU64(handle: i32) u64].  Inside the bounds guard,
    [if (instances[handle]) |*prng|] binds a pointer to the stored generator,
    so the library call advances the generator in its slot; every other path
    reaches the final [return 0]. *)
Definition nextU64 (handle : Z) (p : Pool G) : Z * Pool G :=
  if in_bounds handle then
    match p !! Z.to_nat handle with
    | Some (Some prng) =>
        let '(v, prng') := int_u64 prng in
        (v, <[Z.to_nat handle := Some prng']> p)
    | _ => (0, p)
    end
  else (0, p).

(** [export fn nextF64(handle: i32) f64] *)
Definition nextF64 (handle : Z) (p : Pool G) : Q * Pool G :=
  if in_bounds handle then
    match p !! Z.to_nat handle with
    | Some (Some prng) =>
        let '(v, prng') := float_f64 prng in
        (v, <[Z.to_nat handle := Some prng']> p)
    | _ => (0%Q, p)
    end
  else (0%Q, p).

(** [export fn nextU32Range(handle: i32, min: u32, max: u32) u32] *)
Definition nextU32Range (handle min max : Z) (p : Pool G) : Z * Pool G :=
  if in_bounds handle then
    match p !! Z.to_nat handle with
    | Some (Some prng) =>
        let '(v, prng') := intRangeAtMost_u32 min max prng in
        (v, <[Z.to_nat handle := Some prng']> p)
    | _ => (min, p)
    end
  else (min, p).

(** The generator stored under a handle, if the handle is in bounds and
    its slot is occupied. *)
Definition occupant (handle : Z) (p : Pool G) : option G :=
  if in_bounds handle then
    match p !! Z.to_nat handle with Some o => o | None => None end
  else None.

(** A pool without a [null] slot. *)
Definition full (p : Pool G) : Prop :=
  forall i : nat, (i < MAX_INSTANCES)%nat -> p !! i <> Some None.

(** The pool whose first slots hold the generators [gs], in this order,
    and whose other slots are [null]. *)
Definition pool_of (gs : list G) : Pool G :=
  (Some <$> gs) ++ replicate (MAX_INSTANCES - length gs) None.

(** *** Sequences of draws on one handle *)

Inductive Draw : Type :=
  | DrawU64
  | DrawF64
  | DrawU32Range (min max : Z).

Inductive Value : Type :=
  | U64Value (v : Z)
  | F64Value (v : Q)
  | U32Value (v : Z).

Definition draw (d : Draw) (handle : Z) (p : Pool G) : Value * Pool G :=
  match d with
  | DrawU64 => let '(v, p') := nextU64 handle p in (U64Value v, p')
  | DrawF64 => let '(v, p') := nextF64 handle p in (F64Value v, p')
  | DrawU32Range min max =>
      let '(v, p') := nextU32Range handle min max p in (U32Value v, p')
  end.

Fixpoint draws (ds : list Draw) (handle : Z) (p : Pool G) : list Value * Pool G :=
  match ds with
  | [] => ([], p)
  | d :: ds' =>
      let '(v, p') := draw d handle p in
      let '(vs, p'') := draws ds' handle p' in
      (v :: vs, p'')
  end.

End SlotPool.


(** ** The registry and the [Prng] class of [mod.ts] *)

(** An object of class [Prng]: its private fields [#instance] and [#handle].
    [#instance] is a reference to an element of the module-level array
    [instances], which only ever grows by [push]; the reference is kept as
    the position of that element in the array. *)
Record Prng : Type := { instance : nat; handle : Z }.

(** The three [throw] statements of [mod.ts] and the rejection of the
    promise returned by [WebAssembly.instantiate]. *)
Inductive Failure : Type :=
  | NoSlotsAvailable      (* "No PRNG slots available. Use Prng.createAsync() to auto-expand." *)
  | NewModuleFull         (* "Failed to create PRNG instance in new WASM module" *)
  | InstantiateRejected.  (* createWasmInstance() rejected *)

Inductive Outcome (A : Type) : Type :=
  | Returned (a : A)
  | Thrown (e : Failure).

Arguments Returned {A} a.
Arguments Thrown {A} e.

(** [const instances: WasmExports[]]: the state of each instantiated
    module is its slot pool. *)
Abbreviation Registry G := (list (Pool G)).

Section Registry.

Context {G : Type} `{R : StdRandom G}.

(** [BigInt(seed)] passed to an export with an [i64] parameter, read by Zig
    as [u64]: the seed modulo 2^64.  Seeds are integers here; on a [number]
    that is not one, [BigInt] throws before any export is called. *)
Definition seed_u64 (seed : Z) : Z := U64.wrap seed.

(** [for (const inst of instances) { const handle = inst.create(BigInt(seed));
    if (handle >= 0) return new Prng(inst, handle); }], on the instances from
    position [k] on.  Returns the instances as the calls left them, and the
    new object if the loop returned one. *)
Fixpoint scan_instances (seed : Z) (insts : list (Pool G)) (k : nat)
    : list (Pool G) * option Prng :=
  match insts with
  | [] => ([], None)
  | inst :: rest =>
      let '(inst', h) := create (seed_u64 seed) inst in
      if 0 <=? h then
        (inst' :: rest, Some {| instance := k; handle := h |})
      else
        let '(rest', r) := scan_instances seed rest (S k) in
        (inst' :: rest', r)
  end.

(** [static create(seed: bigint | number): Prng] *)
Definition Prng_create (seed : Z) (reg : Registry G) : Registry G * Outcome Prng :=
  match scan_instances seed reg 0 with
  | (reg', Some w) => (reg', Returned w)
  | (reg', None) => (reg', Thrown NoSlotsAvailable)
  end.

(** [async function createWasmInstance()]: a newly instantiated module has
    every slot [null]; [ok] tells whether [WebAssembly.instantiate] resolved. *)
Definition createWasmInstance (ok : bool) : option (Pool G) :=
  if ok then Some fresh_pool else None.

(** [createAsync] from [await createWasmInstance()] on, run on the registry
    [reg] found when the call resumes: [instances.push(newInst)], then
    [newInst.create(BigInt(seed))] and the test [handle < 0]. *)
Definition createAsync_resume (seed : Z) (newInst : option (Pool G))
    (reg : Registry G) : Registry G * Outcome Prng :=
  match newInst with
  | None => (reg, Thrown InstantiateRejected)
  | Some inst =>
      let '(inst', h) := create (seed_u64 seed) inst in
      if h <? 0 then (reg ++ [inst'], Thrown NewModuleFull)
      else (reg ++ [inst'], Returned {| instance := length reg; handle := h |})
  end.

(** [static async createAsync(seed: bigint | number): Promise<Prng>], when
    nothing else runs while the call is suspended. *)
Definition Prng_createAsync (ok : bool) (seed : Z) (reg : Registry G)
    : Registry G * Outcome Prng :=
  match scan_instances seed reg 0 with
  | (reg', Some w) => (reg', Returned w)
  | (reg', None) => createAsync_resume seed (createWasmInstance ok) reg'
  end.

(** A method of [Prng] that calls an export [f] of [this.#instance] with
    [this.#handle].  [None] stands for an [#instance] that is not in the
    registry, which no object built by [create] or [createAsync] has. *)
Definition on_instance {A : Type} (f : Z -> Pool G -> A * Pool G)
    (w : Prng) (reg : Registry G) : option (A * Registry G) :=
  match reg !! instance w with
  | Some inst =>
      let '(a, inst') := f (handle w) inst in
      Some (a, <[instance w := inst']> reg)
  | None => None
  end.

(** [nextU64(): bigint], [nextF64(): number],
    [nextU32Range(min, max): number] and [destroy(): void].  The values are
    those the export produced in Zig's types. *)
Definition Prng_nextU64 : Prng -> Registry G -> option (Z * Registry G) :=
  on_instance nextU64.

Definition Prng_nextF64 : Prng -> Registry G -> option (Q * Registry G) :=
  on_instance nextF64.

Definition Prng_nextU32Range (min max : Z)
    : Prng -> Registry G -> option (Z * Registry G) :=
  on_instance (fun h => nextU32Range h min max).

Definition Prng_destroy (w : Prng) (reg : Registry G) : option (Registry G) :=
  match reg !! instance w with
  | Some inst => Some (<[instance w := destroy (handle w) inst]> reg)
  | None => None
  end.

(** The generator an object draws from, if it has one. *)
Definition generator_of (w : Prng) (reg : Registry G) : option G :=
  match reg !! instance w with
  | Some inst => occupant (handle w) inst
  | None => None
  end.

(** The registry when the module has been loaded:
    [instances.push(await createWasmInstance())]. *)
Definition initial_registry : Registry G := [fresh_pool].

(** [for (...) rngs.push(await Prng.createAsync(seed))] over a list of seeds,
    every instantiation resolving; stops at the first call that throws. *)
Fixpoint createAsync_all (seeds : list Z) (reg : Registry G)
    : Registry G * Outcome (list Prng) :=
  match seeds with
  | [] => (reg, Returned [])
  | seed :: seeds' =>
      match Prng_createAsync true seed reg with
      | (reg', Returned w) =>
          match createAsync_all seeds' reg' with
          | (reg'', Returned ws) => (reg'', Returned (w :: ws))
          | (reg'', Thrown e) => (reg'', Thrown e)
          end
      | (reg', Thrown e) => (reg', Thrown e)
      end
  end.

End Registry.


(** ** The generator: Zig's [std.Random]

    [std.Random.DefaultPrng] is [std.Random.Xoshiro256] of the Zig standard
    library, which is not part of the repository.  Its operations are
    written here after the library ([lib/std/Random.zig],
    [lib/std/Random/Xoshiro256.zig], [lib/std/Random/SplitMix64.zig]) for a
    module built without safety checks: an [assert] is not evaluated and
    integer arithmetic wraps.  The places where a build with safety checks
    traps instead are marked.  The generator is xoshiro256++; the README of
    the repository and the specification call it Xoshiro256**. *)

Module U32.

Definition modulus : Z := 2 ^ 32.
Definition wrap (x : Z) : Z := x mod modulus.
Definition in_range (x : Z) : Prop := 0 <= x < modulus.

End U32.

Module Xoshiro256.

(** [s: [4]u64]. *)
Record t : Type := { s0 : Z; s1 : Z; s2 : Z; s3 : Z }.

Definition valid (g : t) : Prop :=
  U64.in_range (s0 g) /\ U64.in_range (s1 g) /\
  U64.in_range (s2 g) /\ U64.in_range (s3 g).

(** [Xoshiro256.next]:
    [const r = math.rotl(u64, self.s[0] +% self.s[3], 23) +% self.s[0];
     const t = self.s[1] << 17;
     self.s[2] ^= self.s[0]; self.s[3] ^= self.s[1];
     self.s[1] ^= self.s[2]; self.s[0] ^= self.s[3];
     self.s[2] ^= t; self.s[3] = math.rotl(u64, self.s[3], 45);
     return r;] *)
Definition next (g : t) : Z * t :=
  let r := U64.add (U64.rotl (U64.add (s0 g) (s3 g)) 23) (s0 g) in
  let tmp := U64.shl (s1 g) 17 in
  let a2 := Z.lxor (s2 g) (s0 g) in   (* s[2] ^= s[0] *)
  let a3 := Z.lxor (s3 g) (s1 g) in   (* s[3] ^= s[1] *)
  let a1 := Z.lxor (s1 g) a2 in       (* s[1] ^= s[2] *)
  let a0 := Z.lxor (s0 g) a3 in       (* s[0] ^= s[3] *)
  let b2 := Z.lxor a2 tmp in          (* s[2] ^= t *)
  let b3 := U64.rotl a3 45 in         (* s[3] = rotl(s[3], 45) *)
  (r, {| s0 := a0; s1 := a1; s2 := b2; s3 := b3 |}).


(** [SplitMix64.next]: the counter advances by the golden-ratio constant
    and is mixed.  Returns the output and the counter. *)
Definition splitmix64 (c : Z) : Z * Z :=
  let c := U64.add c 0x9e3779b97f4a7c15 in
  let z := c in
  let z := U64.mul (Z.lxor z (Z.shiftr z 30)) 0xbf58476d1ce4e5b9 in
  let z := U64.mul (Z.lxor z (Z.shiftr z 27)) 0x94d049bb133111eb in
  (Z.lxor z (Z.shiftr z 31), c).

(** [Xoshiro256.init(init_s)], through [seed]: four outputs of a SplitMix64
    started at the seed fill [s[0]] to [s[3]]. *)
Definition expand (seed : Z) : t :=
  let '(w0, c1) := splitmix64 seed in
  let '(w1, c2) := splitmix64 c1 in
  let '(w2, c3) := splitmix64 c2 in
  let '(w3, _) := splitmix64 c3 in
  {| s0 := w0; s1 := w1; s2 := w2; s3 := w3 |}.

(** [random().int(u64)]: the eight bytes [fill] writes are one word of
    [next], low byte first, which is how they are read back. *)
Definition intU64 (g : t) : Z * t := next g.

(** [random().int(u32)]: the four bytes [fill] writes are the low four
    bytes of one word of [next]. *)
Definition intU32 (g : t) : Z * t :=
  let '(w, g') := next g in (U32.wrap w, g').

(** [@clz] of a [u64]. *)
Definition clz64 (w : Z) : Z :=
  if w =? 0 then 64 else 63 - Z.log2 w.

(** The value of a binary64 bit pattern: sign, 11 bits of exponent, 52 bits
    of mantissa.  An exponent field of 0 is a subnormal number.  A field of
    2047 is an infinity or a NaN and has no rational value; the formula of
    the finite numbers is applied to it, and nothing below is stated about
    such a pattern. *)
Definition f64_value (bits : Z) : Q :=
  let sign := Z.shiftr bits 63 in
  let e := Z.land (Z.shiftr bits 52) 2047 in
  let m := Z.land bits 0xFFFFFFFFFFFFF in
  let magnitude :=
    if e =? 0 then Qmake m (2 ^ 1074)
    else if e <? 1075 then Qmake (2 ^ 52 + m) (Z.to_pos (2 ^ (1075 - e)))
    else Qmake ((2 ^ 52 + m) * 2 ^ (e - 1075)) 1 in
  if sign =? 0 then magnitude else Qopp magnitude.

(** The loop of [float(f64)]:
    [while (true) { const addl_rand_lz = @clz(r.int(u64));
       rand_lz += addl_rand_lz;
       if (addl_rand_lz != 64) break;
       if (rand_lz >= 1022) { rand_lz = 1022; break; } }].
    Every round that does not leave the loop adds 64, so from 12 the loop
    is left in the sixteenth round at the latest; [n] counts the rounds
    left and [O] is not reached from [n = 16] (lemma [float_loop_rounds]). *)
Fixpoint float_loop (n : nat) (rand_lz : Z) (g : t) : Z * t :=
  match n with
  | O => (rand_lz, g)
  | S n' =>
      let '(w, g') := intU64 g in
      let addl_rand_lz := clz64 w in
      let rand_lz := rand_lz + addl_rand_lz in
      if negb (addl_rand_lz =? 64) then (rand_lz, g')
      else if 1022 <=? rand_lz then (1022, g')
      else float_loop n' rand_lz g'
  end.

(** The exponent part of [float(f64)]: [var rand_lz: u64 = @clz(rand);
    if (rand_lz >= 12) { rand_lz = 12; while (true) ... }], for the word
    [rand] and the generator after it. *)
Definition float_lz (rand : Z) (g : t) : Z * t :=
  if 12 <=? clz64 rand then float_loop 16 12 g else (clz64 rand, g).

(** [random().float(f64)]:
    [const rand = r.int(u64); ... rand_lz ...;
     const mantissa = rand & 0xFFFFFFFFFFFFF;
     const exponent = (1022 - rand_lz) << 52;
     return @bitCast(exponent | mantissa);].
    [1022 - rand_lz] wraps when [rand_lz] has passed 1022, which takes
    fifteen zero words in a row; with safety checks it traps there. *)
Definition float (g : t) : Q * t :=
  let '(rand, g1) := intU64 g in
  let '(rand_lz, g2) := float_lz rand g1 in
  let mantissa := Z.land rand 0xFFFFFFFFFFFFF in
  let exponent := U64.shl (U64.wrap (1022 - rand_lz)) 52 in
  (f64_value (Z.lor exponent mantissa), g2).

Section Redraws.

(** [uintLessThan] redraws in [while (l < t)] until a word is accepted, and
    nothing in the code bounds the number of redraws.  The model makes at
    most [limit] of them and then keeps the last product. *)
Variable limit : nat.

(** [while (l < t) { x = r.int(T); m = math.mulWide(T, x, less_than);
    l = @truncate(m); }], on the product [m]. *)
Fixpoint redraw (n : nat) (less_than t m : Z) (g : Xoshiro256.t)
    : Z * Xoshiro256.t :=
  if U32.wrap m <? t then
    match n with
    | O => (m, g)
    | S n' =>
        let '(x, g') := intU32 g in
        redraw n' less_than t (x * less_than) g'
    end
  else (m, g).

(** [random().uintLessThan(u32, less_than)]:
    [var x = r.int(T); var m = math.mulWide(T, x, less_than);
     var l: T = @truncate(m);
     if (l < less_than) { var t = -%less_than;
       if (t >= less_than) { t -= less_than;
         if (t >= less_than) t %= less_than; }
       while (l < t) ... }
     return @intCast(m >> bits);] *)
Definition uintLessThan_u32 (less_than : Z) (g : Xoshiro256.t)
    : Z * Xoshiro256.t :=
  let '(x, g1) := intU32 g in
  let m := x * less_than in
  let l := U32.wrap m in
  let '(m', g2) :=
    if l <? less_than then
      let t := U32.wrap (- less_than) in
      let t :=
        if less_than <=? t then
          let t' := t - less_than in
          if less_than <=? t' then t' mod less_than else t'
        else t in
      redraw limit less_than t m g1
    else (m, g1) in
  (Z.shiftr m' 32, g2).

(** [random().uintAtMost(u32, at_most)]:
    [if (at_most == maxInt(T)) return r.int(T);
     return r.uintLessThan(T, at_most + 1);] *)
Definition uintAtMost_u32 (at_most : Z) (g : Xoshiro256.t)
    : Z * Xoshiro256.t :=
  if at_most =? 2 ^ 32 - 1 then intU32 g
  else uintLessThan_u32 (at_most + 1) g.

(** [random().intRangeAtMost(u32, at_least, at_most)]:
    [assert(at_least <= at_most);
     return at_least + r.uintAtMost(T, at_most - at_least);].
    There is no other test of the order of the two bounds.  With
    [at_least > at_most] the subtraction wraps; with safety checks the
    assertion traps. *)
Definition intRangeAtMost (at_least at_most : Z) (g : Xoshiro256.t)
    : Z * Xoshiro256.t :=
  let '(k, g') := uintAtMost_u32 (U32.wrap (at_most - at_least)) g in
  (U32.wrap (at_least + k), g').

(** The four library calls of [prng.zig]. *)
Definition library : StdRandom Xoshiro256.t :=
  {| init := expand;
     int_u64 := intU64;
     float_f64 := float;
     intRangeAtMost_u32 := intRangeAtMost |}.

End Redraws.

End Xoshiro256.

(** ** Concrete runs

    The model run on the seeds of the repository's tests
    ([unnamed/part_000]), with at most 64 redraws in a range reduction. *)

Module Run.

Definition lib : StdRandom Xoshiro256.t := Xoshiro256.library 64.

(** A pool after one allocation, as [Prng.create(seed)] leaves the pool of a
    freshly loaded module. *)
Definition pool_after_create (seed : Z) : Pool Xoshiro256.t :=
  fst (create (R := lib) (seed_u64 seed) fresh_pool).

(** [const rng = Prng.create(555); rng.destroy();] *)
Definition pool_after_destroy : Pool Xoshiro256.t :=
  destroy 0 (pool_after_create 555).

(** The draws of the test "deterministic sequence - multiple method calls". *)
Definition mixed_draws : list Draw :=
  [DrawU64; DrawF64; DrawU32Range 0 1000; DrawU64; DrawF64].

(** [const rng = Prng.create(111); rng.destroy();
     const rng2 = Prng.create(222);]: the registry, and the two objects. *)
Definition registry_after_recreate : Registry Xoshiro256.t :=
  match Prng_create (R := lib) 111 initial_registry with
  | (reg1, Returned rng) =>
      match Prng_destroy rng reg1 with
      | Some reg2 => fst (Prng_create (R := lib) 222 reg2)
      | None => reg1
      end
  | (reg1, Thrown _) => reg1
  end.

Definition rng : Prng := {| instance := 0; handle := 0 |}.
Definition rng2 : Prng := {| instance := 0; handle := 0 |}.

(** [for (let i = 0; i < n; i++) rngs.push(await Prng.createAsync(i))] on
    the registry of a freshly loaded module. *)
Definition registry_after (n : nat) : Registry Xoshiro256.t * Outcome (list Prng) :=
  createAsync_all (R := lib) (Z.of_nat <$> seq 0 n) initial_registry.


Definition objects_of (o : Outcome (list Prng)) : list Prng :=
  match o with
  | Returned ws => ws
  | Thrown _ => []
  end.

End Run.


(** ** The first [mod.ts]: one module

    The wrapper at the head of [src/mod.ts] instantiates a single
    WebAssembly module and gives [Prng] a public constructor. *)

Module Single.

Section Wrapper.

Context {G : Type} `{R : StdRandom G}.

(** What [new Prng(seed)] ends in: an object, which is its [#handle], or
    the [throw new Error("Failed to create PRNG instance (max instances
    reached)")]. *)
Inductive Constructed : Type :=
  | Object (handle : Z)
  | MaxInstancesReached.

(** [constructor(seed: bigint | number)]: [this.#handle =
    wasm.create(BigInt(seed)); if (this.#handle < 0) throw ...]. *)
Definition constructor (seed : Z) (wasm : Pool G) : Pool G * Constructed :=
  let '(wasm', h) := create (seed_u64 seed) wasm in
  if h <? 0 then (wasm', MaxInstancesReached) else (wasm', Object h).

End Wrapper.

End Single.

(** ** Loops of the callers *)

Section Callers.

Context {G : Type} `{R : StdRandom G}.

(** [for (...) rngs.push(Prng.create(seed))] over a list of seeds, as the
    exhaustion tests run it; the first call that throws ends the loop. *)
Fixpoint Prng_create_all (seeds : list Z) (reg : Registry G)
    : Registry G * Outcome (list Prng) :=
  match seeds with
  | [] => (reg, Returned [])
  | seed :: seeds' =>
      match Prng_create seed reg with
      | (reg', Returned w) =>
          match Prng_create_all seeds' reg' with
          | (reg'', Returned ws) => (reg'', Returned (w :: ws))
          | (reg'', Thrown e) => (reg'', Thrown e)
          end
      | (reg', Thrown e) => (reg', Thrown e)
      end
  end.

(** A call of [createAsync] when it first gives up control: it has returned
    an object from its loop, or it is suspended at
    [await createWasmInstance()] with its seed. *)
Inductive Started : Type :=
  | Resolved (w : Prng)
  | Suspended (seed : Z).

(** [Prng.createAsync(seed)] up to that point. *)
Definition createAsync_start (seed : Z) (reg : Registry G)
    : Registry G * Started :=
  match scan_instances seed reg 0 with
  | (reg', Some w) => (reg', Resolved w)
  | (reg', None) => (reg', Suspended seed)
  end.

(** [Array.from({ length: n }, (_, i) => Prng.createAsync(seed_i))], the
    argument of [Promise.all] in the concurrency tests and in the README:
    the calls are started one after the other in one synchronous run, and
    none resumes before the last is started. *)
Fixpoint createAsync_start_all (seeds : list Z) (reg : Registry G)
    : Registry G * list Started :=
  match seeds with
  | [] => (reg, [])
  | seed :: seeds' =>
      let '(reg', c) := createAsync_start seed reg in
      let '(reg'', cs) := createAsync_start_all seeds' reg' in
      (reg'', c :: cs)
  end.

(** Suspended calls resuming one after the other, given by their seeds in
    the order they resume, every instantiation resolving. *)
Fixpoint createAsync_resume_all (resumed : list Z) (reg : Registry G)
    : Registry G * list (Outcome Prng) :=
  match resumed with
  | [] => (reg, [])
  | seed :: resumed' =>
      let '(reg', o) := createAsync_resume seed (createWasmInstance true) reg in
      let '(reg'', os) := createAsync_resume_all resumed' reg' in
      (reg'', o :: os)
  end.

(** The seeds of the calls that are suspended. *)
Definition suspended (cs : list Started) : list Z :=
  omap (fun c => match c with Suspended seed => Some seed | Resolved _ => None end) cs.

(** Draws on several handles of one pool in any order, as the tests on
    independent streams interleave them; each value is kept with the handle
    it was drawn on. *)
Fixpoint draws_mixed (ops : list (Z * Draw)) (p : Pool G)
    : list (Z * Value) * Pool G :=
  match ops with
  | [] => ([], p)
  | (h, d) :: ops' =>
      let '(v, p') := draw d h p in
      let '(vs, p'') := draws_mixed ops' p' in
      ((h, v) :: vs, p'')
  end.

(** The entries of a list of pairs that carry the handle [h]. *)
Definition on_handle {A : Type} (h : Z) (l : list (Z * A)) : list A :=
  omap (fun e => if Z.eqb (fst e) h then Some (snd e) else None) l.

(** What a draw returns on a handle without a generator. *)
Definition default_value (d : Draw) : Value :=
  match d with
  | DrawU64 => U64Value 0
  | DrawF64 => F64Value 0%Q
  | DrawU32Range min _ => U32Value min
  end.


(** The generators a pool holds, in slot order, and their number. *)
Definition generators (p : Pool G) : list G := omap id p.

Definition live (p : Pool G) : nat := length (generators p).

End Callers.

(** Further concrete runs. *)

Module Run2.

Import Run.

(** A pool with 255 generators and a registry of one full pool. *)
Definition pool_255 : Pool Xoshiro256.t :=
  pool_of (replicate 255 (Xoshiro256.expand 0)).

Definition full_registry : Registry Xoshiro256.t :=
  [pool_of (replicate 256 (Xoshiro256.expand 0))].

(** Two generators, seeds 100 and 200, in slots 0 and 1. *)
Definition pool_two : Pool Xoshiro256.t :=
  fst (create (R := lib) 200 (fst (create (R := lib) 100 fresh_pool))).

Definition registry_two : Registry Xoshiro256.t := [pool_two].

Definition rng_a : Prng := {| instance := 0; handle := 0 |}.
Definition rng_b : Prng := {| instance := 0; handle := 1 |}.

End Run2.


(** * Properties *)

(** ** Machine integers *)

Module U64Facts.

Lemma wrap_range (x : Z) : U64.in_range (U64.wrap x).
Proof. unfold U64.in_range, U64.wrap, U64.modulus. apply Z.mod_pos_bound. lia. Qed.

Lemma wrap_small (x : Z) : U64.in_range x -> U64.wrap x = x.
Proof. unfold U64.in_range, U64.wrap. intros Hx. now apply Z.mod_small. Qed.

Lemma wrap_wrap (x : Z) : U64.wrap (U64.wrap x) = U64.wrap x.
Proof. apply wrap_small, wrap_range. Qed.

Lemma mul_range (a b : Z) : U64.in_range (U64.mul a b).
Proof. apply wrap_range. Qed.

Lemma log2_lt_64 (x : Z) : U64.in_range x -> Z.log2 x < 64.
Proof.
  unfold U64.in_range, U64.modulus. intros [Hlo Hhi].
  destruct (Z.eq_dec x 0) as [->|Hne]; [reflexivity|].
  apply Z.log2_lt_pow2; lia.
Qed.

Lemma in_range_of_log2 (x : Z) : 0 <= x -> Z.log2 x < 64 -> U64.in_range x.
Proof.
  unfold U64.in_range, U64.modulus. intros Hlo Hlog. split; [exact Hlo|].
  destruct (Z.eq_dec x 0) as [->|Hne]; [reflexivity|].
  apply Z.log2_lt_pow2; lia.
Qed.

Lemma lxor_range (a b : Z) :
  U64.in_range a -> U64.in_range b -> U64.in_range (Z.lxor a b).
Proof.
  intros Ha Hb. pose proof (log2_lt_64 a Ha). pose proof (log2_lt_64 b Hb).
  destruct Ha as [Ha _], Hb as [Hb _].
  apply in_range_of_log2; [now apply Z.lxor_nonneg|].
  pose proof (Z.log2_lxor a b Ha Hb). lia.
Qed.

Lemma lor_range (a b : Z) :
  U64.in_range a -> U64.in_range b -> U64.in_range (Z.lor a b).
Proof.
  intros Ha Hb. pose proof (log2_lt_64 a Ha). pose proof (log2_lt_64 b Hb).
  destruct Ha as [Ha _], Hb as [Hb _].
  apply in_range_of_log2; [now apply Z.lor_nonneg|].
  pose proof (Z.log2_lor a b Ha Hb). lia.
Qed.

Lemma shiftr_range (x k : Z) :
  U64.in_range x -> 0 <= k -> U64.in_range (Z.shiftr x k).
Proof.
  unfold U64.in_range. intros [Hlo Hhi] Hk.
  rewrite Z.shiftr_div_pow2 by exact Hk.
  assert (0 < 2 ^ k) by now apply Z.pow_pos_nonneg.
  split; [now apply Z.div_pos|].
  apply Z.le_lt_trans with x; [|exact Hhi].
  apply Z.div_le_upper_bound; nia.
Qed.

Lemma rotl_range (x k : Z) :
  U64.in_range x -> k <= 64 -> U64.in_range (U64.rotl x k).
Proof.
  intros Hx Hk. unfold U64.rotl.
  apply lor_range; [apply wrap_range | apply shiftr_range; [exact Hx | lia]].
Qed.

(** The high 53 bits of a 64-bit word. *)
Lemma high_53_bits_range (w : Z) :
  U64.in_range w -> 0 <= Z.shiftr w 11 < 2 ^ 53.
Proof.
  unfold U64.in_range, U64.modulus. intros [Hlo Hhi].
  rewrite Z.shiftr_div_pow2 by lia.
  split; [apply Z.div_pos; lia|].
  apply Z.div_lt_upper_bound; lia.
Qed.


End U64Facts.

(** ** The slot pool *)

Section SlotPoolFacts.

Context {G : Type} `{R : StdRandom G}.

Implicit Types (p : Pool G) (s h : Z) (i j n : nat).

Lemma in_bounds_spec h : in_bounds h = true <-> 0 <= h < 256.
Proof.
  unfold in_bounds, MAX_INSTANCES.
  rewrite andb_true_iff, Z.leb_le, Z.ltb_lt. lia.
Qed.

Lemma in_bounds_false h : in_bounds h = false <-> ~ (0 <= h < 256).
Proof.
  rewrite <- in_bounds_spec. destruct (in_bounds h); split; congruence.
Qed.

Lemma in_bounds_of_nat i : (i < MAX_INSTANCES)%nat -> in_bounds (Z.of_nat i) = true.
Proof. intros Hi. apply in_bounds_spec. unfold MAX_INSTANCES in Hi. lia. Qed.

(** The loop of [create] from index [i] with [n] iterations left: it stops
    at the first [null] slot among [i .. i+n-1], or finds none. *)
Lemma create_loop_cases s p n : forall i,
  (exists j, (i <= j < i + n)%nat /\ p !! j = Some None /\
     (forall k, (i <= k < j)%nat -> p !! k <> Some None) /\
     create_loop s p i n = (<[j := Some (init s)]> p, Z.of_nat j))
  \/ ((forall k, (i <= k < i + n)%nat -> p !! k <> Some None) /\
      create_loop s p i n = (p, -1)).
Proof.
  induction n as [|n IH]; intros i; simpl.
  - right. split; [intros k Hk; lia | reflexivity].
  - assert (Hskip : p !! i <> Some None ->
      (exists j, (i <= j < i + S n)%nat /\ p !! j = Some None /\
         (forall k, (i <= k < j)%nat -> p !! k <> Some None) /\
         create_loop s p (S i) n = (<[j := Some (init s)]> p, Z.of_nat j))
      \/ ((forall k, (i <= k < i + S n)%nat -> p !! k <> Some None) /\
          create_loop s p (S i) n = (p, -1))).
    { intros Hi.
      destruct (IH (S i)) as [(j & Hj & Hnull & Hfirst & Heq)|[Hnone Heq]].
      - left. exists j. split; [lia|]. split; [assumption|]. split; [|assumption].
        intros k Hk. destruct (decide (k = i)) as [->|Hne]; [assumption|].
        apply Hfirst. lia.
      - right. split; [|assumption].
        intros k Hk. destruct (decide (k = i)) as [->|Hne]; [assumption|].
        apply Hnone. lia. }
    destruct (p !! i) as [[g|]|] eqn:Hi.
    + apply Hskip. discriminate.
    + left. exists i. split; [lia|]. split; [assumption|].
      split; [intros k Hk; lia | reflexivity].
    + apply Hskip. discriminate.
Qed.

Lemma create_cases s p :
  (exists j, (j < MAX_INSTANCES)%nat /\ p !! j = Some None /\
     (forall k, (k < j)%nat -> p !! k <> Some None) /\
     create s p = (<[j := Some (init s)]> p, Z.of_nat j))
  \/ (full p /\ create s p = (p, -1)).
Proof.
  unfold create.
  destruct (create_loop_cases s p MAX_INSTANCES 0%nat)
    as [(j & Hj & Hnull & Hfirst & Heq)|[Hnone Heq]].
  - left. exists j. repeat split; try lia; try assumption.
    intros k Hk. apply Hfirst. lia.
  - right. split; [|assumption]. intros k Hk. apply Hnone. lia.
Qed.

Lemma create_full s p : full p -> create s p = (p, -1).
Proof.
  intros Hfull. destruct (create_cases s p) as [(j & Hj & Hnull & _)|[_ Heq]].
  - exfalso. exact (Hfull j Hj Hnull).
  - exact Heq.
Qed.

Lemma create_handle_range s p :
  snd (create s p) = -1 \/ 0 <= snd (create s p) <= 255.
Proof.
  destruct (create_cases s p) as [(j & Hj & _ & _ & Heq)|[_ Heq]];
    rewrite Heq; simpl; unfold MAX_INSTANCES in *; lia.
Qed.

(** A refused allocation leaves the pool as it was. *)
Lemma create_refused s p : snd (create s p) < 0 -> fst (create s p) = p.
Proof.
  destruct (create_cases s p) as [(j & Hj & _ & _ & Heq)|[_ Heq]];
    rewrite Heq; simpl; [lia | reflexivity].
Qed.

(** After a granted allocation the handle's slot holds the seeded generator. *)
Lemma create_occupant s p :
  0 <= snd (create s p) ->
  occupant (snd (create s p)) (fst (create s p)) = Some (init s).
Proof.
  destruct (create_cases s p) as [(j & Hj & Hnull & _ & Heq)|[_ Heq]];
    rewrite Heq; cbn [fst snd]; [intros _ | lia].
  unfold occupant. rewrite in_bounds_of_nat by assumption.
  rewrite Nat2Z.id, list_lookup_insert_eq; [reflexivity|].
  apply lookup_lt_is_Some. eauto.
Qed.

Lemma create_well_formed s p : well_formed p -> well_formed (fst (create s p)).
Proof.
  unfold well_formed.
  destruct (create_cases s p) as [(j & _ & _ & _ & Heq)|[_ Heq]];
    rewrite Heq; simpl; [rewrite length_insert|]; trivial.
Qed.

(** *** Lookup by handle *)

Lemma occupant_Some h p g :
  occupant h p = Some g <->
  in_bounds h = true /\ p !! Z.to_nat h = Some (Some g).
Proof.
  unfold occupant. destruct (in_bounds h).
  - destruct (p !! Z.to_nat h) as [o|]; split.
    + intros ->. auto.
    + intros [_ Heq]. congruence.
    + discriminate.
    + intros [_ Heq]. discriminate.
  - split; [discriminate | intros [Hb _]; discriminate].
Qed.

Lemma occupant_None h p :
  occupant h p = None <->
  in_bounds h = false \/ p !! Z.to_nat h = Some None \/ p !! Z.to_nat h = None.
Proof.
  unfold occupant. destruct (in_bounds h).
  - destruct (p !! Z.to_nat h) as [[g|]|]; split; try discriminate; auto;
      intros [Hb|[Hs|Hn]]; congruence.
  - split; auto.
Qed.

Lemma occupant_out_of_range h p : ~ (0 <= h < 256) -> occupant h p = None.
Proof. intros Hh. apply occupant_None. left. now apply in_bounds_false. Qed.

(** *** [destroy] *)

Lemma destroy_in_bounds h p :
  in_bounds h = true -> destroy h p = <[Z.to_nat h := None]> p.
Proof. unfold destroy. now intros ->. Qed.

Lemma destroy_out_of_range h p : ~ (0 <= h < 256) -> destroy h p = p.
Proof. intros Hh. unfold destroy. now rewrite (proj2 (in_bounds_false h) Hh). Qed.

Lemma destroy_vacant h p : occupant h p = None -> destroy h p = p.
Proof.
  intros Hvac. unfold destroy.
  apply occupant_None in Hvac as [Hb|[Hs|Hn]].
  - now rewrite Hb.
  - destruct (in_bounds h); [now apply list_insert_id | reflexivity].
  - destruct (in_bounds h); [|reflexivity].
    apply list_insert_ge. now apply lookup_ge_None.
Qed.

Lemma occupant_destroy h p : occupant h (destroy h p) = None.
Proof.
  apply occupant_None. unfold destroy.
  destruct (in_bounds h) eqn:Hb; [right | now left].
  destruct (decide (Z.to_nat h < length p)%nat) as [Hlt|Hge].
  - left. now apply list_lookup_insert_eq.
  - right. apply lookup_ge_None. rewrite length_insert. lia.
Qed.

Lemma destroy_idempotent h p : destroy h (destroy h p) = destroy h p.
Proof. apply destroy_vacant, occupant_destroy. Qed.

Lemma destroy_well_formed h p : well_formed p -> well_formed (destroy h p).
Proof.
  unfold well_formed, destroy. intros Hp.
  destruct (in_bounds h); [rewrite length_insert|]; exact Hp.
Qed.

(** [destroy] touches no slot but the one under its handle. *)
Lemma destroy_frame h p i : i <> Z.to_nat h -> destroy h p !! i = p !! i.
Proof.
  intros Hne. unfold destroy. destruct (in_bounds h); [|reflexivity].
  apply list_lookup_insert_ne. congruence.
Qed.

(** *** The draws *)

Lemma nextU64_occupied h p g :
  occupant h p = Some g ->
  nextU64 h p = (fst (int_u64 g), <[Z.to_nat h := Some (snd (int_u64 g))]> p).
Proof.
  intros [Hb Hg]%occupant_Some. unfold nextU64. rewrite Hb, Hg.
  now destruct (int_u64 g).
Qed.

Lemma nextF64_occupied h p g :
  occupant h p = Some g ->
  nextF64 h p = (fst (float_f64 g), <[Z.to_nat h := Some (snd (float_f64 g))]> p).
Proof.
  intros [Hb Hg]%occupant_Some. unfold nextF64. rewrite Hb, Hg.
  now destruct (float_f64 g).
Qed.

Lemma nextU32Range_occupied h min max p g :
  occupant h p = Some g ->
  nextU32Range h min max p =
    (fst (intRangeAtMost_u32 min max g),
     <[Z.to_nat h := Some (snd (intRangeAtMost_u32 min max g))]> p).
Proof.
  intros [Hb Hg]%occupant_Some. unfold nextU32Range. rewrite Hb, Hg.
  now destruct (intRangeAtMost_u32 min max g).
Qed.

Lemma nextU64_vacant h p : occupant h p = None -> nextU64 h p = (0, p).
Proof.
  intros Hvac. unfold nextU64.
  apply occupant_None in Hvac as [->|[->| ->]]; trivial;
    now destruct (in_bounds h).
Qed.

Lemma nextF64_vacant h p : occupant h p = None -> nextF64 h p = (0%Q, p).
Proof.
  intros Hvac. unfold nextF64.
  apply occupant_None in Hvac as [->|[->| ->]]; trivial;
    now destruct (in_bounds h).
Qed.

Lemma nextU32Range_vacant h min max p :
  occupant h p = None -> nextU32Range h min max p = (min, p).
Proof.
  intros Hvac. unfold nextU32Range.
  apply occupant_None in Hvac as [->|[->| ->]]; trivial;
    now destruct (in_bounds h).
Qed.

(** What a draw sees of the pool is the generator under its handle. *)
Lemma occupant_insert h p o :
  in_bounds h = true -> (Z.to_nat h < length p)%nat ->
  occupant h (<[Z.to_nat h := o]> p) = o.
Proof.
  intros Hb Hlt. unfold occupant. rewrite Hb.
  now rewrite list_lookup_insert_eq.
Qed.

Lemma draw_occupied d h p g :
  occupant h p = Some g ->
  exists v g', draw d h p = (v, <[Z.to_nat h := Some g']> p) /\
    occupant h (<[Z.to_nat h := Some g']> p) = Some g' /\
    forall h' p', occupant h' p' = Some g ->
      draw d h' p' = (v, <[Z.to_nat h' := Some g']> p').
Proof.
  intros Hocc.
  assert (Hins : forall h' p' g', occupant h' p' = Some g ->
            occupant h' (<[Z.to_nat h' := Some g']> p') = Some g').
  { intros h' p' g' [Hb Hg]%occupant_Some. apply occupant_insert; [exact Hb|].
    eapply lookup_lt_Some, Hg. }
  destruct d as [| |min max]; simpl.
  - exists (U64Value (fst (int_u64 g))), (snd (int_u64 g)).
    rewrite (nextU64_occupied _ _ _ Hocc). split; [reflexivity|].
    split; [now apply Hins|].
    intros h' p' Hocc'. now rewrite (nextU64_occupied _ _ _ Hocc').
  - exists (F64Value (fst (float_f64 g))), (snd (float_f64 g)).
    rewrite (nextF64_occupied _ _ _ Hocc). split; [reflexivity|].
    split; [now apply Hins|].
    intros h' p' Hocc'. now rewrite (nextF64_occupied _ _ _ Hocc').
  - exists (U32Value (fst (intRangeAtMost_u32 min max g))),
      (snd (intRangeAtMost_u32 min max g)).
    rewrite (nextU32Range_occupied _ _ _ _ _ Hocc). split; [reflexivity|].
    split; [now apply Hins|].
    intros h' p' Hocc'. now rewrite (nextU32Range_occupied _ _ _ _ _ Hocc').
Qed.

(** The values of a sequence of draws are determined by the generator the
    handle's slot holds when the sequence starts. *)
Lemma draws_determined ds : forall h1 p1 h2 p2 g,
  occupant h1 p1 = Some g -> occupant h2 p2 = Some g ->
  fst (draws ds h1 p1) = fst (draws ds h2 p2).
Proof.
  induction ds as [|d ds IH]; intros h1 p1 h2 p2 g H1 H2; [reflexivity|].
  destruct (draw_occupied d h1 p1 g H1) as (v & g' & Hd1 & Hocc1 & Hany).
  pose proof (Hany h2 p2 H2) as Hd2.
  assert (Hocc2 : occupant h2 (<[Z.to_nat h2 := Some g']> p2) = Some g').
  { apply occupant_Some in H2 as [Hb Hg]. apply occupant_insert; [exact Hb|].
    eapply lookup_lt_Some, Hg. }
  simpl. rewrite Hd1, Hd2.
  specialize (IH _ _ _ _ _ Hocc1 Hocc2).
  destruct (draws ds h1 _) as [vs1 q1], (draws ds h2 _) as [vs2 q2].
  simpl in *. now rewrite IH.
Qed.


(** *** Allocation *)

(** C4: for every pool and every seed, [create] scans the slots in index
    order and either stores the seeded generator in the first [null] slot
    and returns that slot's index, a value between 0 and 255, or, when no
    slot is [null], returns [-1] and leaves every slot as it was. *)
Theorem create_first_empty_or_sentinel s p :
  (exists i,
      (i < MAX_INSTANCES)%nat /\ 0 <= Z.of_nat i <= 255 /\
      p !! i = Some None /\
      (forall j, (j < i)%nat -> p !! j <> Some None) /\
      create s p = (<[i := Some (init s)]> p, Z.of_nat i))
  \/ (full p /\ create s p = (p, -1)).
Proof.
  destruct (create_cases s p) as [(i & Hi & Hnull & Hfirst & Heq)|[Hfull Heq]].
  - left. exists i. unfold MAX_INSTANCES in *.
    split; [exact Hi|]. split; [lia|]. auto.
  - right. split; [exact Hfull | exact Heq].
Qed.

(** *** Release *)

(** C8: [destroy] is total and idempotent.  For every integer handle: a
    handle within 0..255 has its slot set to [null] (in an array of 256
    slots the slot then reads [null]) and no other slot is touched; a handle
    outside 0..255, or one whose slot is already [null], leaves the pool
    equal to what it was; and destroying twice equals destroying once. *)
Theorem destroy_total_idempotent h p :
  (0 <= h < 256 /\ destroy h p = <[Z.to_nat h := None]> p
   \/ ~ (0 <= h < 256) /\ destroy h p = p) /\
  (well_formed p /\ 0 <= h < 256 -> destroy h p !! Z.to_nat h = Some None) /\
  occupant h (destroy h p) = None /\
  (forall i, i <> Z.to_nat h -> destroy h p !! i = p !! i) /\
  length (destroy h p) = length p /\
  (occupant h p = None -> destroy h p = p) /\
  destroy h (destroy h p) = destroy h p.
Proof.
  split.
  { destruct (in_bounds h) eqn:Hb.
    - left. split; [now apply in_bounds_spec | now apply destroy_in_bounds].
    - right. apply in_bounds_false in Hb.
      split; [exact Hb | now apply destroy_out_of_range]. }
  split.
  { intros [Hwf Hh]. rewrite destroy_in_bounds by now apply in_bounds_spec.
    apply list_lookup_insert_eq. unfold well_formed, MAX_INSTANCES in Hwf. lia. }
  split; [apply occupant_destroy|].
  split; [intros i; apply destroy_frame|].
  split.
  { unfold destroy. destruct (in_bounds h); [apply length_insert | reflexivity]. }
  split; [apply destroy_vacant | apply destroy_idempotent].
Qed.

(** *** Draws on a handle without a generator *)

(** C7: for every handle that is out of range (negative or at least 256) or
    whose slot is [null], as it is after [destroy], each draw returns its
    default, 0 for [nextU64], 0.0 for [nextF64] and [min] for
    [nextU32Range], and returns the pool unchanged. *)
Theorem draws_on_vacant_handle h min max p :
  ~ (0 <= h < 256) \/ p !! Z.to_nat h = Some None \/
    (exists p0, p = destroy h p0) ->
  nextU64 h p = (0, p) /\
  nextF64 h p = (0%Q, p) /\
  nextU32Range h min max p = (min, p).
Proof.
  intros Hvac.
  assert (Hnone : occupant h p = None).
  { destruct Hvac as [Hout|[Hnull|[p0 ->]]].
    - now apply occupant_out_of_range.
    - apply occupant_None. auto.
    - apply occupant_destroy. }
  split; [now apply nextU64_vacant|].
  split; [now apply nextF64_vacant | now apply nextU32Range_vacant].
Qed.

(** *** Determinism *)

(** C2: for every seed and every fixed sequence of draws ([nextU64],
    [nextF64], [nextU32Range] with fixed arguments), two generators created
    with that seed, in any two pools that grant the allocation, produce the
    same sequence of values. *)
Theorem same_seed_same_sequence s ds p1 p2 :
  0 <= snd (create s p1) -> 0 <= snd (create s p2) ->
  fst (draws ds (snd (create s p1)) (fst (create s p1))) =
  fst (draws ds (snd (create s p2)) (fst (create s p2))).
Proof.
  intros H1 H2.
  apply draws_determined with (g := init s).
  - now apply create_occupant.
  - now apply create_occupant.
Qed.


(** *** Pools filled from the front *)

Lemma pool_of_nil : pool_of [] = fresh_pool (G := G).
Proof. reflexivity. Qed.

Lemma pool_of_lookup_lt (gs : list G) i :
  (i < length gs)%nat -> exists g, pool_of gs !! i = Some (Some g).
Proof.
  intros Hi. unfold pool_of.
  destruct (lookup_lt_is_Some_2 gs i Hi) as [g Hg]. exists g.
  rewrite lookup_app_l by now rewrite length_fmap.
  now rewrite list_lookup_fmap, Hg.
Qed.

Lemma pool_of_lookup_ge (gs : list G) i :
  (length gs <= i < MAX_INSTANCES)%nat -> pool_of gs !! i = Some None.
Proof.
  intros Hi. unfold pool_of.
  rewrite lookup_app_r by (rewrite length_fmap; lia).
  rewrite length_fmap. apply lookup_replicate_2. lia.
Qed.

Lemma pool_of_well_formed (gs : list G) :
  (length gs <= MAX_INSTANCES)%nat -> well_formed (pool_of gs).
Proof.
  intros Hle. unfold well_formed, pool_of.
  rewrite length_app, length_fmap, length_replicate. lia.
Qed.

Lemma pool_of_full (gs : list G) :
  (MAX_INSTANCES <= length gs)%nat -> full (pool_of gs).
Proof.
  intros Hle i Hi.
  destruct (pool_of_lookup_lt gs i) as [g Hg]; [lia|]. congruence.
Qed.

Lemma pool_of_snoc (gs : list G) (g : G) :
  (length gs < MAX_INSTANCES)%nat ->
  <[length gs := Some g]> (pool_of gs) = pool_of (gs ++ [g]).
Proof.
  intros Hlt. unfold pool_of.
  replace (length gs) with (length (Some <$> gs) + 0)%nat at 1
    by (rewrite length_fmap; lia).
  rewrite insert_app_r, fmap_app, length_app. simpl.
  replace (MAX_INSTANCES - length gs)%nat
    with (S (MAX_INSTANCES - (length gs + 1)))%nat by lia.
  simpl. now rewrite <- app_assoc.
Qed.

(** Allocation in a pool filled from the front takes the next slot. *)
Lemma create_pool_of s (gs : list G) :
  (length gs < MAX_INSTANCES)%nat ->
  create s (pool_of gs) = (pool_of (gs ++ [init s]), Z.of_nat (length gs)).
Proof.
  intros Hlt.
  destruct (create_cases s (pool_of gs))
    as [(j & Hj & Hnull & Hfirst & Heq)|[Hfull _]].
  - assert (j = length gs) as ->.
    { destruct (Nat.lt_trichotomy j (length gs)) as [Hl|[He|Hg]].
      - destruct (pool_of_lookup_lt gs j Hl) as [g Hg]. congruence.
      - exact He.
      - exfalso. apply (Hfirst (length gs) Hg).
        apply pool_of_lookup_ge. lia. }
    now rewrite Heq, pool_of_snoc.
  - exfalso. apply (Hfull (length gs) Hlt). apply pool_of_lookup_ge. lia.
Qed.


(** *** Release after allocation *)

(** Releasing the handle an allocation returned restores the pool. *)
Lemma destroy_create s p :
  destroy (snd (create s p)) (fst (create s p)) = p.
Proof.
  destruct (create_cases s p) as [(j & Hj & Hnull & _ & Heq)|[_ Heq]];
    rewrite Heq; cbn [fst snd].
  - rewrite destroy_in_bounds by now apply in_bounds_of_nat.
    rewrite Nat2Z.id, list_insert_insert_eq. now apply list_insert_id.
  - reflexivity.
Qed.

(** Which slot an allocation takes does not depend on the seed. *)
Lemma create_handle_seed s s' p : snd (create s p) = snd (create s' p).
Proof.
  unfold create. generalize 0%nat as i. generalize MAX_INSTANCES as n.
  induction n as [|n IH]; intros i; simpl; [reflexivity|].
  destruct (p !! i) as [[g|]|]; auto.
Qed.


End SlotPoolFacts.

(** ** The registry *)

Section RegistryFacts.

Context {G : Type} `{R : StdRandom G}.

Implicit Types (reg : Registry G) (inst : Pool G) (seed : Z) (w : Prng).

(** The loop over [instances]: it passes over full pools, which refuse the
    allocation and stay as they are, and returns at the first pool that
    grants it; or every pool is full and the loop ends. *)
Lemma scan_instances_cases seed (insts : list (Pool G)) : forall k,
  (exists pre inst post,
      insts = pre ++ inst :: post /\
      Forall full pre /\
      0 <= snd (create (seed_u64 seed) inst) <= 255 /\
      scan_instances seed insts k =
        (pre ++ fst (create (seed_u64 seed) inst) :: post,
         Some {| instance := k + length pre;
                 handle := snd (create (seed_u64 seed) inst) |}))
  \/ (Forall full insts /\ scan_instances seed insts k = (insts, None)).
Proof.
  induction insts as [|inst rest IH]; intros k.
  - right. split; [constructor | reflexivity].
  - simpl.
    destruct (create_cases (seed_u64 seed) inst)
      as [(j & Hj & Hnull & Hfirst & Heq)|[Hfull Heq]].
    + left. exists [], inst, rest. rewrite Heq. cbn [fst snd app length].
      unfold MAX_INSTANCES in Hj.
      split; [reflexivity|]. split; [constructor|]. split; [lia|].
      destruct (Z.leb_spec 0 (Z.of_nat j)); [|lia].
      now rewrite Nat.add_0_r.
    + rewrite Heq. simpl.
      destruct (IH (S k)) as [(pre & q & post & -> & Hpre & Hh & Hscan)|[Hall Hscan]].
      * left. exists (inst :: pre), q, post. rewrite Hscan.
        split; [reflexivity|]. split; [now constructor|]. split; [exact Hh|].
        simpl. now rewrite Nat.add_succ_r.
      * right. rewrite Hscan. split; [now constructor | reflexivity].
Qed.

Lemma scan_instances_full seed (insts : list (Pool G)) k :
  Forall full insts -> scan_instances seed insts k = (insts, None).
Proof.
  revert k. induction insts as [|inst rest IH]; intros k Hall; [reflexivity|].
  inversion Hall as [|? ? Hfull Hrest]; subst. simpl.
  rewrite (create_full _ _ Hfull). simpl. now rewrite IH.
Qed.

(** Full pools in front are passed over. *)
Lemma scan_instances_app seed (pre rest : list (Pool G)) k :
  Forall full pre ->
  scan_instances seed (pre ++ rest) k =
    (pre ++ fst (scan_instances seed rest (k + length pre)),
     snd (scan_instances seed rest (k + length pre))).
Proof.
  revert k. induction pre as [|inst pre IH]; intros k Hall.
  - simpl. rewrite Nat.add_0_r. now destruct (scan_instances seed rest k).
  - inversion Hall as [|? ? Hfull Hpre]; subst. simpl.
    rewrite (create_full _ _ Hfull). simpl. rewrite (IH (S k) Hpre).
    now rewrite Nat.add_succ_r.
Qed.

Lemma scan_instances_length seed (insts : list (Pool G)) k :
  length (fst (scan_instances seed insts k)) = length insts.
Proof.
  destruct (scan_instances_cases seed insts k)
    as [(pre & inst & post & -> & _ & _ & ->)|[_ ->]]; [|reflexivity].
  cbn [fst]. now rewrite !length_app.
Qed.

(** A newly instantiated module grants the first allocation at handle 0. *)
Lemma create_fresh_pool s :
  create s fresh_pool = (pool_of [init s], 0) :> Pool G * Z.
Proof. rewrite <- pool_of_nil. apply (create_pool_of s []). simpl. unfold MAX_INSTANCES. lia. Qed.

Lemma createAsync_resume_fresh seed reg :
  createAsync_resume seed (createWasmInstance true) reg =
    (reg ++ [pool_of [init (seed_u64 seed)]],
     Returned {| instance := length reg; handle := 0 |}).
Proof.
  unfold createAsync_resume, createWasmInstance.
  now rewrite create_fresh_pool.
Qed.

Lemma Forall_full_refused s (insts : list (Pool G)) :
  Forall full insts -> Forall (fun q => create s q = (q, -1)) insts.
Proof.
  intros Hall. eapply Forall_impl; [exact Hall|].
  intros q. apply create_full.
Qed.

(** *** Synchronous creation *)

(** C5: [Prng.create] tries the existing pools in creation order and
    returns an object for the first pool that grants the allocation, every
    pool before it having refused; when every existing pool refuses it
    throws, and the registry is exactly what it was.  In neither case does
    the number of pools change. *)
Theorem Prng_create_first_fit_or_throw seed reg :
  ((exists pre inst post h,
      reg = pre ++ inst :: post /\
      Forall (fun q => create (seed_u64 seed) q = (q, -1)) pre /\
      h = snd (create (seed_u64 seed) inst) /\ 0 <= h <= 255 /\
      Prng_create seed reg =
        (pre ++ fst (create (seed_u64 seed) inst) :: post,
         Returned {| instance := length pre; handle := h |}))
   \/ (Forall (fun q => create (seed_u64 seed) q = (q, -1)) reg /\
       Prng_create seed reg = (reg, Thrown NoSlotsAvailable))) /\
  length (fst (Prng_create seed reg)) = length reg.
Proof.
  unfold Prng_create. split.
  - destruct (scan_instances_cases seed reg 0)
      as [(pre & inst & post & Hreg & Hpre & Hh & Hscan)|[Hall Hscan]];
      rewrite Hscan.
    + left. exists pre, inst, post, (snd (create (seed_u64 seed) inst)).
      split; [exact Hreg|]. split; [now apply Forall_full_refused|].
      split; [reflexivity|]. split; [exact Hh | reflexivity].
    + right. split; [now apply Forall_full_refused | reflexivity].
  - pose proof (scan_instances_length seed reg 0) as Hlen.
    destruct (scan_instances seed reg 0) as [reg' [w|]]; exact Hlen.
Qed.

(** *** Creation with expansion *)

Lemma Prng_createAsync_full ok seed reg :
  Forall full reg ->
  Prng_createAsync ok seed reg =
    createAsync_resume seed (createWasmInstance ok) reg.
Proof.
  intros Hall. unfold Prng_createAsync.
  now rewrite (scan_instances_full seed reg 0 Hall).
Qed.

(** One allocation into a registry whose last pool is filled from the front
    and has room, every pool before it being full. *)
Lemma Prng_createAsync_room seed (fulls : list (Pool G)) (gs : list G) :
  Forall full fulls -> (length gs < MAX_INSTANCES)%nat ->
  Prng_createAsync true seed (fulls ++ [pool_of gs]) =
    (fulls ++ [pool_of (gs ++ [init (seed_u64 seed)])],
     Returned {| instance := length fulls; handle := Z.of_nat (length gs) |}).
Proof.
  intros Hall Hlt. unfold Prng_createAsync.
  rewrite (scan_instances_app seed fulls [pool_of gs] 0 Hall). simpl.
  rewrite (create_pool_of _ gs Hlt).
  destruct (Z.leb_spec 0 (Z.of_nat (length gs))); [reflexivity | lia].
Qed.

(** The handles [i, i+1, ..] of [n] objects in the pool at position [k]. *)
Lemma createAsync_all_room (seeds : list Z) : forall (fulls : list (Pool G)) (gs : list G),
  Forall full fulls -> (length gs + length seeds <= MAX_INSTANCES)%nat ->
  createAsync_all seeds (fulls ++ [pool_of gs]) =
    (fulls ++ [pool_of (gs ++ ((fun seed => init (seed_u64 seed)) <$> seeds))],
     Returned ((fun i => {| instance := length fulls; handle := Z.of_nat i |})
                 <$> seq (length gs) (length seeds))).
Proof.
  induction seeds as [|seed seeds IH]; intros fulls gs Hall Hlen.
  - simpl. now rewrite app_nil_r.
  - simpl in Hlen. cbn [createAsync_all].
    rewrite Prng_createAsync_room by (trivial; lia).
    rewrite (IH fulls (gs ++ [init (seed_u64 seed)]) Hall)
      by (rewrite length_app; simpl; lia).
    rewrite length_app. simpl. rewrite <- app_assoc. simpl.
    now rewrite Nat.add_1_r.
Qed.

Lemma createAsync_all_app (seeds1 seeds2 : list Z) : forall reg,
  createAsync_all (seeds1 ++ seeds2) reg =
    match createAsync_all seeds1 reg with
    | (reg', Returned ws1) =>
        match createAsync_all seeds2 reg' with
        | (reg'', Returned ws2) => (reg'', Returned (ws1 ++ ws2))
        | (reg'', Thrown e) => (reg'', Thrown e)
        end
    | (reg', Thrown e) => (reg', Thrown e)
    end.
Proof.
  induction seeds1 as [|seed seeds1 IH]; intros reg.
  - simpl. now destruct (createAsync_all seeds2 reg) as [reg' [ws|e]].
  - simpl. destruct (Prng_createAsync true seed reg) as [reg1 [w|e]]; [|reflexivity].
    rewrite IH.
    destruct (createAsync_all seeds1 reg1) as [reg2 [ws1|e]]; [|reflexivity].
    now destruct (createAsync_all seeds2 reg2) as [reg3 [ws2|e]].
Qed.


(** 512 allocations on the registry of a freshly loaded module: the first
    256 fill the initial pool, the 257th instantiates a second module, and
    the rest fill that one. *)
Lemma createAsync_all_512 (seeds : list Z) :
  length seeds = 512%nat ->
  createAsync_all seeds initial_registry =
    ([pool_of ((fun seed => init (seed_u64 seed)) <$> take 256 seeds);
      pool_of ((fun seed => init (seed_u64 seed)) <$> drop 256 seeds)],
     Returned
       (((fun i => {| instance := 0; handle := Z.of_nat i |}) <$> seq 0 256) ++
        ((fun i => {| instance := 1; handle := Z.of_nat i |}) <$> seq 0 256))).
Proof.
  intros Hlen.
  rewrite <- (take_drop 256 seeds) at 1.
  assert (Htake : length (take 256 seeds) = 256%nat)
    by (rewrite length_take; lia).
  assert (Hdrop : length (drop 256 seeds) = 256%nat)
    by (rewrite length_drop; lia).
  rewrite createAsync_all_app.
  change (initial_registry (G := G)) with ([] ++ [pool_of (@nil G)]).
  rewrite (createAsync_all_room (take 256 seeds) [] [])
    by (trivial; simpl; unfold MAX_INSTANCES; lia).
  rewrite Htake. cbn [app length].
  set (first := pool_of ((fun seed => init (seed_u64 seed)) <$> take 256 seeds)).
  assert (Hfull : full first).
  { apply pool_of_full. rewrite length_fmap, Htake. unfold MAX_INSTANCES. lia. }
  destruct (drop 256 seeds) as [|seed rest] eqn:Hrest; [discriminate|].
  simpl in Hdrop. cbn [createAsync_all].
  assert (Hfulls : Forall full [first])
    by (constructor; [exact Hfull | constructor]).
  rewrite (Prng_createAsync_full true seed [first] Hfulls).
  rewrite createAsync_resume_fresh. cbn [length].
  rewrite (createAsync_all_room rest [first] [init (seed_u64 seed)] Hfulls)
    by (simpl; unfold MAX_INSTANCES; lia).
  cbn [length app fmap list_fmap].
  replace (length rest) with 255%nat by lia.
  reflexivity.
Qed.

(** C6: [Prng.createAsync] makes the same scan as [Prng.create] and returns
    what it returns whenever a pool grants the allocation.  When every pool
    is full it instantiates one module, appends it to the registry and
    allocates into it, which succeeds at handle 0; this holds for any
    registry found when the suspended call resumes.  It fails only when the
    instantiation fails, and then the registry is unchanged.  In particular
    512 allocations on the registry of a freshly loaded module all succeed
    and leave exactly two pools of 256 slots, each without a [null] slot,
    the first 256 objects in the first pool and the others in the second. *)
Theorem Prng_createAsync_expands ok seed reg :
  ((exists reg' w,
      Prng_create seed reg = (reg', Returned w) /\
      Prng_createAsync ok seed reg = (reg', Returned w))
   \/ (Forall full reg /\
       Prng_create seed reg = (reg, Thrown NoSlotsAvailable) /\
       Prng_createAsync true seed reg =
         (reg ++ [<[0%nat := Some (init (seed_u64 seed))]> fresh_pool],
          Returned {| instance := length reg; handle := 0 |}) /\
       Prng_createAsync false seed reg = (reg, Thrown InstantiateRejected))) /\
  (forall reg2,
      createAsync_resume seed (createWasmInstance true) reg2 =
        (reg2 ++ [<[0%nat := Some (init (seed_u64 seed))]> fresh_pool],
         Returned {| instance := length reg2; handle := 0 |}) /\
      createAsync_resume seed (createWasmInstance false) reg2 =
        (reg2, Thrown InstantiateRejected)) /\
  (forall seeds, length seeds = 512%nat ->
      exists p0 p1 ws,
        createAsync_all seeds initial_registry = ([p0; p1], Returned ws) /\
        well_formed p0 /\ full p0 /\ well_formed p1 /\ full p1 /\
        length ws = 512%nat /\
        instance <$> ws = replicate 256 0%nat ++ replicate 256 1%nat).
Proof.
  assert (Hresume : forall reg2,
    createAsync_resume seed (createWasmInstance true) reg2 =
      (reg2 ++ [<[0%nat := Some (init (seed_u64 seed))]> fresh_pool],
       Returned {| instance := length reg2; handle := 0 |})).
  { intros reg2. apply createAsync_resume_fresh. }
  split; [|split].
  - unfold Prng_create, Prng_createAsync.
    destruct (scan_instances_cases seed reg 0)
      as [(pre & inst & post & Hreg & Hpre & Hh & Hscan)|[Hall Hscan]].
    + left. rewrite Hscan. eauto.
    + right. rewrite Hscan. split; [exact Hall|]. split; [reflexivity|].
      generalize (Prng_createAsync_full true seed reg Hall).
      generalize (Prng_createAsync_full false seed reg Hall).
      unfold Prng_createAsync. rewrite Hscan. intros _ _.
      split; [apply Hresume | reflexivity].
  - intros reg2. split; [apply Hresume | reflexivity].
  - intros seeds Hlen. rewrite (createAsync_all_512 seeds Hlen).
    assert (Htake : length (take 256 seeds) = 256%nat)
      by (rewrite length_take; lia).
    assert (Hdrop : length (drop 256 seeds) = 256%nat)
      by (rewrite length_drop; lia).
    eexists _, _, _. split; [reflexivity|].
    split; [apply pool_of_well_formed; rewrite length_fmap, Htake; reflexivity|].
    split; [apply pool_of_full; rewrite length_fmap, Htake; reflexivity|].
    split; [apply pool_of_well_formed; rewrite length_fmap, Hdrop; reflexivity|].
    split; [apply pool_of_full; rewrite length_fmap, Hdrop; reflexivity|].
    split; [reflexivity|].
    rewrite fmap_app, <- !list_fmap_compose. reflexivity.
Qed.


(** *** Objects and their generators *)

Lemma scan_instances_seed seed seed' (insts : list (Pool G)) : forall k,
  snd (scan_instances seed insts k) = snd (scan_instances seed' insts k).
Proof.
  induction insts as [|inst rest IH]; intros k; [reflexivity|]. simpl.
  pose proof (create_handle_seed (seed_u64 seed) (seed_u64 seed') inst) as Hh.
  destruct (create (seed_u64 seed) inst) as [i1 h1],
           (create (seed_u64 seed') inst) as [i2 h2].
  simpl in Hh. subst h2.
  destruct (0 <=? h1); [reflexivity|].
  specialize (IH (S k)).
  destruct (scan_instances seed rest (S k)), (scan_instances seed' rest (S k)).
  exact IH.
Qed.

(** The object [Prng.create] returns draws from the seeded generator. *)
Lemma Prng_create_generator seed reg reg' w :
  Prng_create seed reg = (reg', Returned w) ->
  generator_of w reg' = Some (init (seed_u64 seed)).
Proof.
  unfold Prng_create.
  destruct (scan_instances_cases seed reg 0)
    as [(pre & inst & post & Hreg & Hpre & Hh & Hscan)|[Hall Hscan]];
    rewrite Hscan; [|discriminate].
  intros [= <- <-]. unfold generator_of. cbn [instance handle].
  rewrite (list_lookup_middle pre post _ (length pre) eq_refl).
  apply create_occupant. lia.
Qed.

(** Two objects created with the same seed, in any two registries, start
    from the same generator; with [draws_determined] their sequences agree. *)
Lemma Prng_create_same_seed seed reg1 reg1' reg2 reg2' w1 w2 :
  Prng_create seed reg1 = (reg1', Returned w1) ->
  Prng_create seed reg2 = (reg2', Returned w2) ->
  generator_of w1 reg1' = generator_of w2 reg2'.
Proof.
  intros H1 H2.
  rewrite (Prng_create_generator _ _ _ _ H1).
  now rewrite (Prng_create_generator _ _ _ _ H2).
Qed.

(** X10: create and destroy are a round trip.  Destroying the object
    [Prng.create] has just returned restores the registry exactly, so the
    next [Prng.create] returns an object with the same instance and the
    same handle, whatever its seed, drawing from the new seed's generator. *)
Lemma Prng_create_after_destroy seed1 seed2 reg reg1 w :
  Prng_create seed1 reg = (reg1, Returned w) ->
  Prng_destroy w reg1 = Some reg /\
  exists reg3, Prng_create seed2 reg = (reg3, Returned w) /\
    generator_of w reg3 = Some (init (seed_u64 seed2)).
Proof.
  intros Hcreate.
  assert (Hsame : snd (Prng_create seed2 reg) = Returned w).
  { pose proof (scan_instances_seed seed1 seed2 reg 0) as Hs.
    unfold Prng_create in *.
    destruct (scan_instances seed1 reg 0) as [r1 [w1|]]; [|discriminate].
    injection Hcreate as <- <-.
    destruct (scan_instances seed2 reg 0) as [r2 [w2|]]; [|discriminate].
    simpl in Hs. now injection Hs as <-. }
  split.
  - unfold Prng_create in Hcreate.
    destruct (scan_instances_cases seed1 reg 0)
      as [(pre & inst & post & Hreg & Hpre & Hh & Hscan)|[Hall Hscan]];
      rewrite Hscan in Hcreate; [|discriminate].
    injection Hcreate as <- <-. unfold Prng_destroy. cbn [instance handle].
    rewrite (list_lookup_middle pre post _ (length pre) eq_refl).
    rewrite destroy_create, Hreg. f_equal.
    replace (length pre) with (length pre + 0)%nat at 1 by lia.
    now rewrite insert_app_r.
  - destruct (Prng_create seed2 reg) as [reg3 o] eqn:Hc2. simpl in Hsame. subst o.
    exists reg3. split; [reflexivity|].
    now apply (Prng_create_generator seed2 reg).
Qed.

(** *** Destroying through a stale object *)

(** C10: [Prng.destroy] leaves the object's handle in place.  Whenever an
    object [p] has the instance and the handle of a live object [q] (as
    after [p] was destroyed and a later create returned its slot to [q]),
    [p.destroy()] sets [q]'s slot to [null]: [q] has no generator any more
    and its draws return the defaults 0, 0.0 and [min]. *)
Theorem stale_destroy_empties_reallocated_slot reg (p q : Prng) (g : G) min max :
  instance q = instance p -> handle q = handle p ->
  generator_of q reg = Some g ->
  exists reg',
    Prng_destroy p reg = Some reg' /\
    generator_of q reg' = None /\
    Prng_nextU64 q reg' = Some (0, reg') /\
    Prng_nextF64 q reg' = Some (0%Q, reg') /\
    Prng_nextU32Range min max q reg' = Some (min, reg').
Proof.
  intros Hinst Hhandle Hlive.
  unfold generator_of in Hlive.
  destruct (reg !! instance q) as [inst|] eqn:Hq; [|discriminate].
  assert (Hlt : (instance q < length reg)%nat) by (eapply lookup_lt_Some, Hq).
  unfold Prng_destroy. rewrite <- Hinst, <- Hhandle, Hq.
  set (reg' := <[instance q := destroy (handle q) inst]> reg).
  assert (Hq' : reg' !! instance q = Some (destroy (handle q) inst))
    by now apply list_lookup_insert_eq.
  assert (Hsame : <[instance q := destroy (handle q) inst]> reg' = reg')
    by now apply list_insert_id.
  pose proof (occupant_destroy (handle q) inst) as Hvac.
  exists reg'. split; [reflexivity|].
  split; [unfold generator_of; now rewrite Hq'|].
  unfold Prng_nextU64, Prng_nextF64, Prng_nextU32Range, on_instance.
  rewrite Hq', (nextU64_vacant _ _ Hvac), (nextF64_vacant _ _ Hvac),
    (nextU32Range_vacant _ min max _ Hvac), Hsame.
  auto.
Qed.


End RegistryFacts.

(** ** The generator behind the handles *)

Module BitFacts.





End BitFacts.

Section GeneratorFacts.

Import Xoshiro256.

Variable limit : nat.

Implicit Types (p : Pool Xoshiro256.t) (g : Xoshiro256.t) (h : Z).

Lemma next_result_range g : U64.in_range (fst (next g)).
Proof. apply U64Facts.wrap_range. Qed.

Lemma next_valid g : valid g -> valid (snd (next g)).
Proof.
  intros (H0 & H1 & H2 & H3). unfold valid, next. cbn [snd s0 s1 s2 s3].
  repeat split;
    repeat first [ apply U64Facts.lxor_range
                 | apply U64Facts.rotl_range; [|lia]
                 | apply U64Facts.wrap_range
                 | assumption ].
Qed.

Lemma splitmix64_range (c : Z) :
  U64.in_range (fst (splitmix64 c)) /\ U64.in_range (snd (splitmix64 c)).
Proof.
  unfold splitmix64. cbn [fst snd]. split; [|apply U64Facts.wrap_range].
  apply U64Facts.lxor_range; [apply U64Facts.mul_range|].
  apply U64Facts.shiftr_range; [apply U64Facts.mul_range | lia].
Qed.

Lemma expand_valid (seed : Z) : valid (expand seed).
Proof.
  unfold expand.
  pose proof (splitmix64_range seed) as [Ha _].
  destruct (splitmix64 seed) as [w0 c1].
  pose proof (splitmix64_range c1) as [Hb _].
  destruct (splitmix64 c1) as [w1 c2].
  pose proof (splitmix64_range c2) as [Hc _].
  destruct (splitmix64 c2) as [w2 c3].
  pose proof (splitmix64_range c3) as [Hd _].
  destruct (splitmix64 c3) as [w3 c4].
  cbn [fst] in *. unfold valid. cbn [s0 s1 s2 s3]. auto.
Qed.

(** C1, as the code has it: for every generator state (s0, s1, s2, s3)
    stored in an occupied slot, [nextU64] on that handle returns
    rotl(s0 + s3, 23) + s0, in wrapping 64-bit arithmetic, and leaves in
    the slot the state s0 ^ s3 ^ s1, s1 ^ s2 ^ s0, s2 ^ s0 ^ (s1 << 17) and
    rotl(s3 ^ s1, 45): the step of xoshiro256++, whose state transition is
    the one the claim gives and whose output word is another.  The result
    is a 64-bit word and a state of 64-bit words stays one. *)
Theorem nextU64_xoshiro256_plusplus_step h p g :
  occupant h p = Some g ->
  nextU64 (R := library limit) h p =
    (U64.add (U64.rotl (U64.add (s0 g) (s3 g)) 23) (s0 g),
     <[Z.to_nat h :=
        Some {| s0 := Z.lxor (s0 g) (Z.lxor (s3 g) (s1 g));
                s1 := Z.lxor (s1 g) (Z.lxor (s2 g) (s0 g));
                s2 := Z.lxor (Z.lxor (s2 g) (s0 g)) (U64.shl (s1 g) 17);
                s3 := U64.rotl (Z.lxor (s3 g) (s1 g)) 45 |}]> p) /\
  U64.in_range (fst (nextU64 (R := library limit) h p)) /\
  (valid g ->
   exists g', occupant h (snd (nextU64 (R := library limit) h p)) = Some g' /\
              valid g').
Proof.
  intros Hocc.
  pose proof (nextU64_occupied (R := library limit) h p g Hocc) as Hstep.
  split; [exact Hstep|]. rewrite Hstep. cbn [fst snd].
  split; [apply next_result_range|].
  intros Hvalid. exists (snd (next g)).
  split; [|now apply next_valid].
  apply occupant_Some in Hocc as [Hb Hg].
  apply occupant_insert; [exact Hb|]. eapply lookup_lt_Some, Hg.
Qed.

(** *** [float(f64)] *)





(** Sixteen rounds are enough: more rounds give the same result. *)
Lemma float_loop_rounds n k : forall lz g,
  lz < 1022 -> 1022 <= lz + 64 * Z.of_nat n ->
  float_loop n lz g = float_loop (n + k) lz g.
Proof.
  induction n as [|n IH]; intros lz g Hlt Hle; [lia|].
  cbn [float_loop Nat.add]. unfold intU64. destruct (next g) as [w g'].
  destruct (Z.eqb_spec (clz64 w) 64) as [Heq|Hne]; cbn [negb]; [|reflexivity].
  destruct (Z.leb_spec 1022 (lz + clz64 w)); [reflexivity|].
  apply IH; lia.
Qed.










(** *** [intRangeAtMost] *)








End GeneratorFacts.

(** ** The properties on concrete runs *)

Module RunFacts.

Import Xoshiro256 Run.

(** The first word of the generator seeded with 0. *)
Example first_word_seed_0 :
  fst (nextU64 (R := lib) 0 (pool_after_create 0)) = 0x53175d61490b23df.
Proof. vm_compute. reflexivity. Qed.

(** The second allocation of the run of C10 gets the slot of the first. *)
Example recreate_same_slot :
  exists reg1 reg2 reg3,
    Prng_create (R := lib) 111 initial_registry = (reg1, Returned rng) /\
    Prng_destroy rng reg1 = Some reg2 /\
    Prng_create (R := lib) 222 reg2 = (reg3, Returned rng2) /\
    reg3 = registry_after_recreate.
Proof.
  eexists _, _, _. split; [vm_compute; reflexivity|].
  split; [vm_compute; reflexivity|].
  split; vm_compute; reflexivity.
Qed.

(** The test "resource exhaustion - Prng.create() throws when full": after
    256 allocations the 257th synchronous one throws, and there is still
    one pool. *)
Example create_257th_throws :
  snd (Prng_create (R := lib) 999 (fst (registry_after 256))) =
    Thrown NoSlotsAvailable /\
  length (fst (Prng_create (R := lib) 999 (fst (registry_after 256)))) = 1%nat.
Proof. split; vm_compute; reflexivity. Qed.

(** The test "createAsync - creates multiple WASM instances as needed". *)
Example createAsync_512_two_modules :
  length (fst (registry_after 512)) = 2%nat /\
  List.map instance (objects_of (snd (registry_after 512))) =
    List.repeat 0%nat 256 ++ List.repeat 1%nat 256.
Proof. split; vm_compute; reflexivity. Qed.

(** Seed 33333 in an empty pool and in a pool whose slot 0 is taken: the two
    handles differ, the five values agree. *)
Lemma same_seed_same_sequence_witness :
  0 <= snd (create (R := lib) 33333 fresh_pool) /\
  0 <= snd (create (R := lib) 33333 (pool_after_create 7)) /\
  fst (draws (R := lib) mixed_draws
         (snd (create (R := lib) 33333 fresh_pool))
         (fst (create (R := lib) 33333 fresh_pool))) =
  fst (draws (R := lib) mixed_draws
         (snd (create (R := lib) 33333 (pool_after_create 7)))
         (fst (create (R := lib) 33333 (pool_after_create 7)))).
Proof.
  assert (H1 : 0 <= snd (create (R := lib) 33333 fresh_pool))
    by (apply Z.leb_le; vm_compute; reflexivity).
  assert (H2 : 0 <= snd (create (R := lib) 33333 (pool_after_create 7)))
    by (apply Z.leb_le; vm_compute; reflexivity).
  split; [exact H1|]. split; [exact H2|].
  exact (same_seed_same_sequence 33333 mixed_draws
           fresh_pool (pool_after_create 7) H1 H2).
Defined.

(** The test "methods called after destroy return safe defaults". *)
Lemma draws_on_vacant_handle_witness :
  (exists p0, pool_after_destroy = destroy 0 p0) /\
  nextU64 (R := lib) 0 pool_after_destroy = (0, pool_after_destroy) /\
  nextF64 (R := lib) 0 pool_after_destroy = (0%Q, pool_after_destroy) /\
  nextU32Range (R := lib) 0 10 20 pool_after_destroy = (10, pool_after_destroy).
Proof.
  assert (Hrel : exists p0, pool_after_destroy = destroy 0 p0)
    by (exists (pool_after_create 555); reflexivity).
  split; [exact Hrel|].
  apply (draws_on_vacant_handle (R := lib) 0 10 20 pool_after_destroy).
  right. right. exact Hrel.
Defined.

(** The run [rng.destroy(); rng2 = Prng.create(222); rng.destroy();]: the
    second destroy takes [rng2]'s generator away. *)
Lemma stale_destroy_empties_reallocated_slot_witness :
  instance rng2 = instance rng /\ handle rng2 = handle rng /\
  generator_of rng2 registry_after_recreate = Some (expand 222) /\
  exists reg',
    Prng_destroy rng registry_after_recreate = Some reg' /\
    generator_of rng2 reg' = None /\
    Prng_nextU64 (R := lib) rng2 reg' = Some (0, reg') /\
    Prng_nextF64 (R := lib) rng2 reg' = Some (0%Q, reg') /\
    Prng_nextU32Range (R := lib) 10 20 rng2 reg' = Some (10, reg').
Proof.
  assert (Hlive : generator_of rng2 registry_after_recreate = Some (expand 222))
    by (vm_compute; reflexivity).
  split; [reflexivity|]. split; [reflexivity|]. split; [exact Hlive|].
  exact (stale_destroy_empties_reallocated_slot (R := lib)
           registry_after_recreate rng rng2 (expand 222) 10 20
           eq_refl eq_refl Hlive).
Defined.

(** The step on the generator seeded with 0, in slot 0 of a one-generator
    pool. *)
Lemma nextU64_xoshiro256_plusplus_step_witness :
  occupant 0 (pool_after_create 0) = Some (expand 0) /\
  fst (nextU64 (R := lib) 0 (pool_after_create 0)) =
    U64.add (U64.rotl (U64.add (s0 (expand 0)) (s3 (expand 0))) 23)
            (s0 (expand 0)).
Proof.
  assert (Hocc : occupant 0 (pool_after_create 0) = Some (expand 0))
    by (vm_compute; reflexivity).
  split; [exact Hocc|].
  destruct (nextU64_xoshiro256_plusplus_step 64 0
              (pool_after_create 0) (expand 0) Hocc) as [Hstep _].
  unfold lib. rewrite Hstep. reflexivity.
Defined.

(** Seed 0: the word [nextU64] returns is not rotl(s1 * 5, 7) * 9. *)
Lemma nextU64_not_starstar :
  occupant 0 (pool_after_create 0) = Some (expand 0) /\
  fst (nextU64 (R := lib) 0 (pool_after_create 0)) = 5987356902031041503 /\
  U64.mul (U64.rotl (U64.mul (s1 (expand 0)) 5) 7) 9 = 11091344671253066420 /\
  fst (nextU64 (R := lib) 0 (pool_after_create 0)) <>
    U64.mul (U64.rotl (U64.mul (s1 (expand 0)) 5) 7) 9.
Proof.
  split; [vm_compute; reflexivity|].
  split; [vm_compute; reflexivity|].
  split; [vm_compute; reflexivity|].
  vm_compute. discriminate.
Qed.






End RunFacts.

(** ** Further properties of the slot pool *)

Section SlotPoolMore.

Context {G : Type} `{R : StdRandom G}.

Implicit Types (p : Pool G) (s h : Z) (i j n : nat) (d : Draw).

Lemma occupant_insert_ne h1 h2 (o : option G) p :
  h1 <> h2 -> in_bounds h1 = true ->
  occupant h2 (<[Z.to_nat h1 := o]> p) = occupant h2 p.
Proof.
  intros Hne Hb1. unfold occupant.
  destruct (in_bounds h2) eqn:Hb2; [|reflexivity].
  apply in_bounds_spec in Hb1, Hb2.
  rewrite list_lookup_insert_ne; [reflexivity | lia].
Qed.

Lemma draw_vacant d h p :
  occupant h p = None -> draw d h p = (default_value d, p).
Proof.
  intros Hvac. destruct d as [| |min max]; simpl.
  - now rewrite (nextU64_vacant _ _ Hvac).
  - now rewrite (nextF64_vacant _ _ Hvac).
  - now rewrite (nextU32Range_vacant _ min max _ Hvac).
Qed.

Lemma draws_vacant ds h p :
  occupant h p = None -> draws ds h p = (default_value <$> ds, p).
Proof.
  intros Hvac. induction ds as [|d ds IH]; [reflexivity|].
  simpl. now rewrite (draw_vacant d h p Hvac), IH.
Qed.

(** A draw changes no slot but the one under its handle. *)
Lemma draw_frame d h1 h2 p :
  h1 <> h2 -> occupant h2 (snd (draw d h1 p)) = occupant h2 p.
Proof.
  intros Hne. destruct (occupant h1 p) as [g|] eqn:Hocc.
  - destruct (draw_occupied d h1 p g Hocc) as (v & g' & -> & _ & _).
    apply occupant_insert_ne; [exact Hne|].
    now apply occupant_Some in Hocc as [Hb _].
  - now rewrite (draw_vacant d h1 p Hocc).
Qed.

(** The values of a sequence of draws are a function of what the handle's
    slot holds, a generator or none. *)
Lemma draws_by_occupant ds h1 p1 h2 p2 :
  occupant h1 p1 = occupant h2 p2 ->
  fst (draws ds h1 p1) = fst (draws ds h2 p2).
Proof.
  intros Heq. destruct (occupant h1 p1) as [g|] eqn:H1.
  - now apply draws_determined with (g := g).
  - now rewrite (draws_vacant ds h1 p1 H1), (draws_vacant ds h2 p2 (eq_sym Heq)).
Qed.

(** X1: draws on different handles of one pool do not affect each other.
    In any interleaving of draws on any handles, the values drawn on a
    handle are the values that handle's own draws give when they are run
    alone on the initial pool. *)
Theorem draws_mixed_independent (ops : list (Z * Draw)) h : forall p,
  on_handle h (fst (draws_mixed ops p)) = fst (draws (on_handle h ops) h p).
Proof.
  induction ops as [|[h' d] ops IH]; intros p; [reflexivity|].
  cbn [draws_mixed].
  destruct (draw d h' p) as [v p'] eqn:Hd.
  specialize (IH p').
  destruct (draws_mixed ops p') as [vs p''].
  unfold on_handle in *. cbn [omap list_omap fst snd] in *.
  destruct (Z.eqb_spec h' h) as [->|Hne].
  - cbn [draws]. rewrite Hd.
    destruct (draws _ h p') as [ws q]. cbn [fst] in *. now rewrite IH.
  - rewrite IH. apply draws_by_occupant.
    replace p' with (snd (draw d h' p)) by now rewrite Hd.
    now apply draw_frame.
Qed.

(** A generator in the pool is still there after [create], which returns
    another handle. *)
Lemma create_keeps_occupant s h (g : G) p :
  occupant h p = Some g ->
  occupant h (fst (create s p)) = Some g /\ snd (create s p) <> h.
Proof.
  intros Hocc.
  pose proof Hocc as [Hb Hg]%occupant_Some. apply in_bounds_spec in Hb.
  destruct (create_cases s p) as [(j & Hj & Hnull & _ & Heq)|[_ Heq]];
    rewrite Heq; cbn [fst snd].
  - assert (Hne : Z.of_nat j <> h).
    { intros <-. rewrite Nat2Z.id in Hg. congruence. }
    split; [|exact Hne].
    rewrite <- (Nat2Z.id j), occupant_insert_ne; trivial.
    now apply in_bounds_of_nat.
  - split; [exact Hocc | lia].
Qed.

(** X2: an allocation never disturbs a live generator.  For every handle
    that has a generator, the generator is the same after [create], the
    handle [create] returns is a different one, and the values the handle
    draws after the allocation are those it would draw without it. *)
Theorem create_preserves_live s h (g : G) p ds :
  occupant h p = Some g ->
  occupant h (fst (create s p)) = Some g /\
  snd (create s p) <> h /\
  fst (draws ds h (fst (create s p))) = fst (draws ds h p).
Proof.
  intros Hocc.
  destruct (create_keeps_occupant s h g p Hocc) as [Hkeep Hne].
  split; [exact Hkeep|]. split; [exact Hne|].
  apply draws_by_occupant. congruence.
Qed.

(** X3: a released slot is reusable at once.  In a pool of 256 slots, after
    [destroy] on a handle within 0..255 the next [create] succeeds and
    returns a handle no larger than the released one; if the pool was full,
    it returns the released handle itself and the pool differs from the
    full one only in that slot. *)
Theorem create_after_destroy_reuses s h p :
  well_formed p -> 0 <= h < 256 ->
  0 <= snd (create s (destroy h p)) <= h /\
  (full p ->
   create s (destroy h p) = (<[Z.to_nat h := Some (init s)]> p, h)).
Proof.
  intros Hwf Hh.
  assert (Hb : in_bounds h = true) by now apply in_bounds_spec.
  assert (Hlt : (Z.to_nat h < length p)%nat)
    by (unfold well_formed, MAX_INSTANCES in Hwf; lia).
  assert (Hnull : destroy h p !! Z.to_nat h = Some None).
  { rewrite destroy_in_bounds by exact Hb. now apply list_lookup_insert_eq. }
  destruct (create_cases s (destroy h p))
    as [(j & Hj & Hjnull & Hfirst & Heq)|[Hfull _]].
  - assert (Hle : (j <= Z.to_nat h)%nat).
    { destruct (Nat.le_gt_cases j (Z.to_nat h)) as [Hle|Hgt]; [exact Hle|].
      exfalso. exact (Hfirst _ Hgt Hnull). }
    rewrite Heq. cbn [fst snd]. split; [lia|].
    intros Hpfull.
    assert (j = Z.to_nat h) as ->.
    { destruct (decide (j = Z.to_nat h)) as [He|Hne]; [exact He|].
      exfalso. apply (Hpfull j Hj).
      now rewrite <- (destroy_frame h p j Hne). }
    rewrite destroy_in_bounds by exact Hb.
    rewrite list_insert_insert_eq. f_equal. lia.
  - exfalso. apply (Hfull (Z.to_nat h)); [|exact Hnull].
    unfold MAX_INSTANCES. lia.
Qed.

End SlotPoolMore.

(** ** The number of live generators *)

Section LiveCount.

Context {G : Type} `{R : StdRandom G}.

Implicit Types (p : Pool G) (s h : Z) (i j n : nat) (d : Draw).

Lemma live_cons (o : option G) p :
  live (o :: p) = (length (option_list o) + live p)%nat.
Proof. unfold live, generators. now destruct o. Qed.

Lemma live_app p1 p2 : live (p1 ++ p2) = (live p1 + live p2)%nat.
Proof. unfold live, generators. now rewrite omap_app, length_app. Qed.

Lemma live_le_length p : (live p <= length p)%nat.
Proof.
  induction p as [|o p IH]; [reflexivity|].
  rewrite live_cons. destruct o; simpl; lia.
Qed.

(** Writing a slot changes the count by what goes in and what goes out. *)
Lemma live_insert p i (o o' : option G) :
  p !! i = Some o ->
  (live (<[i := o']> p) + length (option_list o) =
   live p + length (option_list o'))%nat.
Proof.
  intros Hi.
  rewrite insert_take_drop by (eapply lookup_lt_Some, Hi).
  rewrite <- (take_drop_middle p i o Hi) at 3.
  rewrite !live_app, !live_cons. lia.
Qed.

Lemma live_all_occupied p : live p = length p <-> Forall is_Some p.
Proof.
  induction p as [|o p IH].
  - split; [constructor | reflexivity].
  - rewrite live_cons, Forall_cons. pose proof (live_le_length p).
    destruct o as [g|]; simpl.
    + rewrite <- IH. split; [intros; split; [eauto | lia] | intros [_ ->]; reflexivity].
    + split; [lia | intros [[g Hg] _]; discriminate].
Qed.

Lemma full_all_occupied p : well_formed p -> full p <-> Forall is_Some p.
Proof.
  unfold well_formed, full. intros Hwf. rewrite Forall_lookup. split.
  - intros Hfull i o Hi. destruct o as [g|]; [eauto|].
    exfalso. apply (Hfull i); [|exact Hi].
    rewrite <- Hwf. eapply lookup_lt_Some, Hi.
  - intros Hall i _ Hi. destruct (Hall i None Hi) as [g Hg]. discriminate.
Qed.

(** X4: the pool's capacity counted in live generators.  In a pool of 256
    slots there are at most 256 generators; [create] is refused exactly
    when there are 256; a granted [create] adds one; [destroy] removes one
    if the handle has a generator and none otherwise; a draw changes
    nothing in the count. *)
Theorem live_generators_capacity s p :
  well_formed p ->
  (live p <= 256)%nat /\
  (snd (create s p) = -1 <-> live p = 256%nat) /\
  (0 <= snd (create s p) -> live (fst (create s p)) = S (live p)) /\
  (forall h g, occupant h p = Some g -> S (live (destroy h p)) = live p) /\
  (forall h, occupant h p = None -> live (destroy h p) = live p) /\
  (forall d h, live (snd (draw d h p)) = live p).
Proof.
  intros Hwf. pose proof (live_le_length p) as Hle.
  pose proof Hwf as Hlen. unfold well_formed, MAX_INSTANCES in Hlen.
  assert (Hfull : full p <-> live p = 256%nat).
  { rewrite (full_all_occupied p Hwf), <- live_all_occupied. lia. }
  split; [lia|]. split; [|split; [|split; [|split]]].
  - destruct (create_cases s p) as [(j & Hj & Hnull & _ & Heq)|[Hf Heq]];
      rewrite Heq; cbn [snd].
    + split; [lia|]. intros Hlive. exfalso.
      apply Hfull in Hlive. exact (Hlive j Hj Hnull).
    + split; [intros _; now apply Hfull | reflexivity].
  - destruct (create_cases s p) as [(j & Hj & Hnull & _ & Heq)|[Hf Heq]];
      rewrite Heq; cbn [fst snd]; [intros _ | lia].
    pose proof (live_insert p j None (Some (init s)) Hnull) as Hins.
    simpl in Hins. lia.
  - intros h g [Hb Hg]%occupant_Some.
    rewrite destroy_in_bounds by exact Hb.
    pose proof (live_insert p _ (Some g) None Hg) as Hins.
    simpl in Hins. lia.
  - intros h Hvac. now rewrite destroy_vacant.
  - intros d h. destruct (occupant h p) as [g|] eqn:Hocc.
    + destruct (draw_occupied d h p g Hocc) as (v & g' & -> & _ & _).
      apply occupant_Some in Hocc as [_ Hg].
      pose proof (live_insert p _ (Some g) (Some g') Hg) as Hins.
      cbn [snd]. simpl in Hins. lia.
    + now rewrite (draw_vacant d h p Hocc).
Qed.

End LiveCount.

(** ** Further properties of the registry *)

Section RegistryMore.

Context {G : Type} `{R : StdRandom G}.

Implicit Types (reg : Registry G) (inst : Pool G) (seed : Z) (w : Prng).

(** *** The synchronous loop *)

Lemma Prng_create_full seed reg :
  Forall full reg -> Prng_create seed reg = (reg, Thrown NoSlotsAvailable).
Proof.
  intros Hall. unfold Prng_create.
  now rewrite (scan_instances_full seed reg 0 Hall).
Qed.

Lemma Prng_create_room seed (fulls : list (Pool G)) (gs : list G) :
  Forall full fulls -> (length gs < MAX_INSTANCES)%nat ->
  Prng_create seed (fulls ++ [pool_of gs]) =
    (fulls ++ [pool_of (gs ++ [init (seed_u64 seed)])],
     Returned {| instance := length fulls; handle := Z.of_nat (length gs) |}).
Proof.
  intros Hall Hlt. unfold Prng_create.
  rewrite (scan_instances_app seed fulls [pool_of gs] 0 Hall). simpl.
  rewrite (create_pool_of _ gs Hlt).
  destruct (Z.leb_spec 0 (Z.of_nat (length gs))); [reflexivity | lia].
Qed.

Lemma Prng_create_all_room (seeds : list Z) : forall (fulls : list (Pool G)) (gs : list G),
  Forall full fulls -> (length gs + length seeds <= MAX_INSTANCES)%nat ->
  Prng_create_all seeds (fulls ++ [pool_of gs]) =
    (fulls ++ [pool_of (gs ++ ((fun seed => init (seed_u64 seed)) <$> seeds))],
     Returned ((fun i => {| instance := length fulls; handle := Z.of_nat i |})
                 <$> seq (length gs) (length seeds))).
Proof.
  induction seeds as [|seed seeds IH]; intros fulls gs Hall Hlen.
  - simpl. now rewrite app_nil_r.
  - simpl in Hlen. cbn [Prng_create_all].
    rewrite Prng_create_room by (trivial; lia).
    rewrite (IH fulls (gs ++ [init (seed_u64 seed)]) Hall)
      by (rewrite length_app; simpl; lia).
    rewrite length_app. simpl. rewrite <- app_assoc. simpl.
    now rewrite Nat.add_1_r.
Qed.

Lemma Prng_create_all_app (seeds1 seeds2 : list Z) : forall reg,
  Prng_create_all (seeds1 ++ seeds2) reg =
    match Prng_create_all seeds1 reg with
    | (reg', Returned ws1) =>
        match Prng_create_all seeds2 reg' with
        | (reg'', Returned ws2) => (reg'', Returned (ws1 ++ ws2))
        | (reg'', Thrown e) => (reg'', Thrown e)
        end
    | (reg', Thrown e) => (reg', Thrown e)
    end.
Proof.
  induction seeds1 as [|seed seeds1 IH]; intros reg.
  - simpl. now destruct (Prng_create_all seeds2 reg) as [reg' [ws|e]].
  - simpl. destruct (Prng_create seed reg) as [reg1 [w|e]]; [|reflexivity].
    rewrite IH.
    destruct (Prng_create_all seeds1 reg1) as [reg2 [ws1|e]]; [|reflexivity].
    now destruct (Prng_create_all seeds2 reg2) as [reg3 [ws2|e]].
Qed.

(** X5: synchronous creation on a freshly loaded module, for any seeds.  A
    loop of at most 256 calls of [Prng.create] returns objects with the
    handles 0, 1, 2, ... of the one module, in this order; a longer loop
    throws at its 257th call, with the module holding the generators of the
    first 256 seeds and no module added. *)
Theorem Prng_create_all_exhausts (seeds : list Z) :
  ((length seeds <= 256)%nat /\
   Prng_create_all seeds initial_registry =
     ([pool_of ((fun seed => init (seed_u64 seed)) <$> seeds)],
      Returned ((fun i => {| instance := 0; handle := Z.of_nat i |})
                  <$> seq 0 (length seeds))))
  \/ ((256 < length seeds)%nat /\
      Prng_create_all seeds initial_registry =
        ([pool_of ((fun seed => init (seed_u64 seed)) <$> take 256 seeds)],
         Thrown NoSlotsAvailable)).
Proof.
  change (initial_registry (G := G)) with ([] ++ [pool_of (@nil G)]).
  destruct (Nat.le_gt_cases (length seeds) 256) as [Hle|Hgt].
  - left. split; [exact Hle|].
    now rewrite (Prng_create_all_room seeds [] []) by (trivial; simpl; exact Hle).
  - right. split; [exact Hgt|].
    rewrite <- (take_drop 256 seeds) at 1.
    assert (Htake : length (take 256 seeds) = 256%nat)
      by (rewrite length_take; lia).
    rewrite Prng_create_all_app.
    rewrite (Prng_create_all_room (take 256 seeds) [] [])
      by (trivial; simpl; rewrite Htake; reflexivity).
    cbn [app length].
    destruct (drop 256 seeds) as [|seed rest] eqn:Hrest.
    { apply (f_equal length) in Hrest. rewrite length_drop in Hrest.
      simpl in Hrest. lia. }
    cbn [Prng_create_all]. rewrite Prng_create_full; [reflexivity|].
    constructor; [|constructor].
    apply pool_of_full. rewrite length_fmap, Htake. reflexivity.
Qed.

(** *** Calls of [createAsync] started together *)

Lemma createAsync_start_full seed reg :
  Forall full reg -> createAsync_start seed reg = (reg, Suspended seed).
Proof.
  intros Hall. unfold createAsync_start.
  now rewrite (scan_instances_full seed reg 0 Hall).
Qed.

Lemma createAsync_start_room seed (fulls : list (Pool G)) (gs : list G) :
  Forall full fulls -> (length gs < MAX_INSTANCES)%nat ->
  createAsync_start seed (fulls ++ [pool_of gs]) =
    (fulls ++ [pool_of (gs ++ [init (seed_u64 seed)])],
     Resolved {| instance := length fulls; handle := Z.of_nat (length gs) |}).
Proof.
  intros Hall Hlt. unfold createAsync_start.
  rewrite (scan_instances_app seed fulls [pool_of gs] 0 Hall). simpl.
  rewrite (create_pool_of _ gs Hlt).
  destruct (Z.leb_spec 0 (Z.of_nat (length gs))); [reflexivity | lia].
Qed.

Lemma createAsync_start_all_full (seeds : list Z) reg :
  Forall full reg ->
  createAsync_start_all seeds reg = (reg, Suspended <$> seeds).
Proof.
  intros Hall. induction seeds as [|seed seeds IH]; [reflexivity|].
  cbn [createAsync_start_all]. now rewrite createAsync_start_full, IH.
Qed.

Lemma createAsync_start_all_room (seeds : list Z) : forall (fulls : list (Pool G)) (gs : list G),
  Forall full fulls -> (length gs + length seeds <= MAX_INSTANCES)%nat ->
  createAsync_start_all seeds (fulls ++ [pool_of gs]) =
    (fulls ++ [pool_of (gs ++ ((fun seed => init (seed_u64 seed)) <$> seeds))],
     (fun i => Resolved {| instance := length fulls; handle := Z.of_nat i |})
       <$> seq (length gs) (length seeds)).
Proof.
  induction seeds as [|seed seeds IH]; intros fulls gs Hall Hlen.
  - simpl. now rewrite app_nil_r.
  - simpl in Hlen. cbn [createAsync_start_all].
    rewrite createAsync_start_room by (trivial; lia).
    rewrite (IH fulls (gs ++ [init (seed_u64 seed)]) Hall)
      by (rewrite length_app; simpl; lia).
    rewrite length_app. simpl. rewrite <- app_assoc. simpl.
    now rewrite Nat.add_1_r.
Qed.

Lemma createAsync_start_all_app (seeds1 seeds2 : list Z) : forall reg,
  createAsync_start_all (seeds1 ++ seeds2) reg =
    (fst (createAsync_start_all seeds2 (fst (createAsync_start_all seeds1 reg))),
     snd (createAsync_start_all seeds1 reg) ++
     snd (createAsync_start_all seeds2 (fst (createAsync_start_all seeds1 reg)))).
Proof.
  induction seeds1 as [|seed seeds1 IH]; intros reg.
  - simpl. now destruct (createAsync_start_all seeds2 reg).
  - cbn [createAsync_start_all app].
    destruct (createAsync_start seed reg) as [reg1 c].
    rewrite IH.
    destruct (createAsync_start_all seeds1 reg1) as [reg2 cs]. reflexivity.
Qed.

(** Each resuming call appends a module of its own. *)
Lemma createAsync_resume_all_spec (resumed : list Z) : forall reg,
  createAsync_resume_all resumed reg =
    (reg ++ ((fun seed => pool_of [init (seed_u64 seed)]) <$> resumed),
     imap (fun i _ => Returned {| instance := length reg + i; handle := 0 |})
       resumed).
Proof.
  induction resumed as [|seed resumed IH]; intros reg.
  - simpl. now rewrite app_nil_r.
  - cbn [createAsync_resume_all]. rewrite createAsync_resume_fresh, IH.
    rewrite length_app. cbn [length fmap list_fmap imap].
    rewrite <- app_assoc, Nat.add_0_r. cbn [app]. do 2 f_equal.
    apply imap_ext. intros i x _. unfold compose.
    now rewrite Nat.add_1_r, Nat.add_succ_r.
Qed.

(** *** Objects do not interfere *)

Lemma generator_of_insert_other w1 w2 inst inst' reg :
  reg !! instance w1 = Some inst ->
  (instance w2 = instance w1 ->
   occupant (handle w2) inst' = occupant (handle w2) inst) ->
  generator_of w2 (<[instance w1 := inst']> reg) = generator_of w2 reg.
Proof.
  intros Hinst Hsame. unfold generator_of.
  destruct (decide (instance w2 = instance w1)) as [Heq|Hne].
  - rewrite Heq, Hinst, list_lookup_insert_eq
      by (eapply lookup_lt_Some, Hinst).
    now apply Hsame.
  - now rewrite list_lookup_insert_ne by congruence.
Qed.

Lemma Prng_neq_handle w1 w2 :
  w1 <> w2 -> instance w2 = instance w1 -> handle w1 <> handle w2.
Proof.
  intros Hne Hinst Hh. apply Hne. destruct w1, w2. simpl in *. congruence.
Qed.

(** X7: a method called on one object never changes the generator of
    another.  For two objects that differ in their instance or in their
    handle, each draw and [destroy] called on the first is carried out and
    leaves the second with exactly the generator it had. *)
Theorem Prng_methods_isolated reg w1 w2 min max :
  w1 <> w2 -> (instance w1 < length reg)%nat ->
  (exists v reg', Prng_nextU64 w1 reg = Some (v, reg') /\
     generator_of w2 reg' = generator_of w2 reg) /\
  (exists v reg', Prng_nextF64 w1 reg = Some (v, reg') /\
     generator_of w2 reg' = generator_of w2 reg) /\
  (exists v reg', Prng_nextU32Range min max w1 reg = Some (v, reg') /\
     generator_of w2 reg' = generator_of w2 reg) /\
  (exists reg', Prng_destroy w1 reg = Some reg' /\
     generator_of w2 reg' = generator_of w2 reg).
Proof.
  intros Hne Hlt.
  destruct (lookup_lt_is_Some_2 reg _ Hlt) as [inst Hinst].
  pose proof (Prng_neq_handle w1 w2 Hne) as Hh.
  assert (Hdraw : forall d, instance w2 = instance w1 ->
    occupant (handle w2) (snd (draw d (handle w1) inst)) =
    occupant (handle w2) inst).
  { intros d Heq. apply draw_frame. now apply Hh. }
  unfold Prng_nextU64, Prng_nextF64, Prng_nextU32Range, Prng_destroy, on_instance.
  rewrite Hinst.
  split; [|split; [|split]].
  - pose proof (Hdraw DrawU64) as Hd. simpl in Hd.
    destruct (nextU64 (handle w1) inst) as [v inst']. eexists _, _.
    split; [reflexivity|]. now apply generator_of_insert_other with inst.
  - pose proof (Hdraw DrawF64) as Hd. simpl in Hd.
    destruct (nextF64 (handle w1) inst) as [v inst']. eexists _, _.
    split; [reflexivity|]. now apply generator_of_insert_other with inst.
  - pose proof (Hdraw (DrawU32Range min max)) as Hd. simpl in Hd.
    destruct (nextU32Range (handle w1) min max inst) as [v inst']. eexists _, _.
    split; [reflexivity|]. now apply generator_of_insert_other with inst.
  - eexists. split; [reflexivity|].
    apply generator_of_insert_other with inst; [exact Hinst|].
    intros Heq. specialize (Hh Heq).
    destruct (in_bounds (handle w1)) eqn:Hb1.
    + rewrite destroy_in_bounds by exact Hb1. now apply occupant_insert_ne.
    + unfold destroy. now rewrite Hb1.
Qed.


Lemma generator_of_app_l w reg (more : list (Pool G)) :
  (instance w < length reg)%nat ->
  generator_of w (reg ++ more) = generator_of w reg.
Proof. intros Hlt. unfold generator_of. now rewrite lookup_app_l. Qed.

Lemma generator_of_lt w reg (g : G) :
  generator_of w reg = Some g -> (instance w < length reg)%nat.
Proof.
  unfold generator_of. intros Hg.
  destruct (reg !! instance w) as [inst|] eqn:Hinst; [|discriminate].
  eapply lookup_lt_Some, Hinst.
Qed.

(** What the loop over the instances does to a live object: nothing. *)
Lemma scan_instances_keeps seed reg w (g : G) :
  generator_of w reg = Some g ->
  generator_of w (fst (scan_instances seed reg 0)) = Some g /\
  snd (scan_instances seed reg 0) <> Some w.
Proof.
  intros Hlive.
  destruct (scan_instances_cases seed reg 0)
    as [(pre & inst & post & Hreg & _ & _ & Hscan)|[_ Hscan]];
    rewrite Hscan; cbn [fst snd]; [|split; [exact Hlive | discriminate]].
  assert (Hinst : reg !! length pre = Some inst)
    by (rewrite Hreg; now apply list_lookup_middle).
  assert (Hins : pre ++ fst (create (seed_u64 seed) inst) :: post =
                 <[length pre := fst (create (seed_u64 seed) inst)]> reg).
  { rewrite Hreg. replace (length pre) with (length pre + 0)%nat by lia.
    now rewrite insert_app_r. }
  assert (Hkeep : instance w = length pre ->
    occupant (handle w) (fst (create (seed_u64 seed) inst)) = Some g /\
    snd (create (seed_u64 seed) inst) <> handle w).
  { intros Hw. apply create_keeps_occupant.
    unfold generator_of in Hlive. now rewrite Hw, Hinst in Hlive. }
  split.
  - rewrite Hins, <- Hlive.
    apply (generator_of_insert_other
             {| instance := length pre; handle := 0 |} w inst); [exact Hinst|].
    cbn [instance]. intros Hw. destruct (Hkeep Hw) as [-> _].
    unfold generator_of in Hlive. now rewrite Hw, Hinst in Hlive.
  - intros [= Hw]. destruct w as [wi wh]. cbn [instance handle] in *.
    injection Hw as Hi Hh. destruct (Hkeep (eq_sym Hi)) as [_ Hne].
    now apply Hne.
Qed.

(** *** Calls started together, on any registry *)

Lemma createAsync_start_cases seed reg :
  (exists w reg',
      createAsync_start seed reg = (reg', Resolved w) /\
      generator_of w reg' = Some (init (seed_u64 seed)) /\
      length reg' = length reg)
  \/ (Forall full reg /\ createAsync_start seed reg = (reg, Suspended seed)).
Proof.
  pose proof (Prng_create_generator seed reg) as Hgen.
  pose proof (scan_instances_length seed reg 0) as Hlen.
  unfold createAsync_start. unfold Prng_create in Hgen.
  destruct (scan_instances_cases seed reg 0)
    as [(pre & inst & post & _ & _ & _ & Hscan)|[Hall Hscan]].
  - left. rewrite Hscan in *. cbn [fst] in Hlen. eexists _, _.
    split; [reflexivity|]. split; [now apply Hgen | exact Hlen].
  - right. rewrite Hscan. split; [exact Hall | reflexivity].
Qed.

Lemma createAsync_start_all_keeps (seeds : list Z) : forall reg w (g : G),
  generator_of w reg = Some g ->
  generator_of w (fst (createAsync_start_all seeds reg)) = Some g.
Proof.
  induction seeds as [|seed seeds IH]; intros reg w g Hlive; [exact Hlive|].
  cbn [createAsync_start_all].
  destruct (scan_instances_keeps seed reg w g Hlive) as [Hkeep _].
  unfold createAsync_start.
  destruct (scan_instances seed reg 0) as [reg' [w'|]]; cbn [fst] in Hkeep;
    specialize (IH reg' w g Hkeep);
    destruct (createAsync_start_all seeds reg') as [reg'' cs]; exact IH.
Qed.

(** The synchronous run: a prefix of the calls resolves, the rest is
    suspended. *)
Lemma createAsync_start_all_split (seeds : list Z) : forall reg,
  exists first rest ws reg1,
    seeds = first ++ rest /\
    createAsync_start_all seeds reg =
      (reg1, (Resolved <$> ws) ++ (Suspended <$> rest)) /\
    length reg1 = length reg /\
    Forall2 (fun seed w => generator_of w reg1 = Some (init (seed_u64 seed)))
      first ws /\
    (rest = [] \/ Forall full reg1).
Proof.
  induction seeds as [|seed seeds IH]; intros reg.
  - exists [], [], [], reg. repeat split; auto.
  - destruct (createAsync_start_cases seed reg)
      as [(w & reg' & Hstart & Hgen & Hlen)|[Hall Hstart]].
    + destruct (IH reg') as (first & rest & ws & reg1 & -> & Hall & Hlen1 & Hgens & Hrest).
      pose proof (createAsync_start_all_keeps (first ++ rest) reg' w _ Hgen) as Hkeep.
      exists (seed :: first), rest, (w :: ws), reg1.
      cbn [createAsync_start_all]. rewrite Hstart, Hall in *. cbn [fst] in Hkeep.
      split; [reflexivity|]. split; [reflexivity|]. split; [congruence|].
      split; [now constructor | exact Hrest].
    + exists [], (seed :: seeds), [], reg.
      rewrite (createAsync_start_all_full (seed :: seeds) reg Hall).
      split; [reflexivity|]. split; [reflexivity|]. split; [reflexivity|].
      split; [constructor | now right].
Qed.

(** X6: calls of [createAsync] started together each instantiate a module
    of their own.  On any registry, starting any calls in one synchronous
    run resolves a prefix of them in the existing pools, each object
    holding the generator of its seed, and suspends all the others, which
    are the calls from the first one that finds every pool full; no pool is
    added yet.  In whatever order the suspended calls then resume, each
    appends one module and returns handle 0 of it: the registry grows by
    one module per suspended call, each holding a single generator. *)
Theorem createAsync_started_together (seeds : list Z) reg :
  exists first rest ws reg1,
    seeds = first ++ rest /\
    createAsync_start_all seeds reg =
      (reg1, (Resolved <$> ws) ++ (Suspended <$> rest)) /\
    length reg1 = length reg /\
    Forall2 (fun seed w => generator_of w reg1 = Some (init (seed_u64 seed)))
      first ws /\
    (rest = [] \/ Forall full reg1) /\
    forall resumed, Permutation resumed rest ->
      createAsync_resume_all resumed reg1 =
        (reg1 ++ ((fun seed => pool_of [init (seed_u64 seed)]) <$> resumed),
         imap (fun i _ => Returned {| instance := length reg1 + i; handle := 0 |})
           resumed) /\
      length (fst (createAsync_resume_all resumed reg1)) =
        (length reg1 + length rest)%nat /\
      Forall (fun q => live q = 1%nat)
        (drop (length reg1) (fst (createAsync_resume_all resumed reg1))).
Proof.
  destruct (createAsync_start_all_split seeds reg)
    as (first & rest & ws & reg1 & Hsplit & Hstart & Hlen & Hgens & Hrest).
  exists first, rest, ws, reg1.
  split; [exact Hsplit|]. split; [exact Hstart|]. split; [exact Hlen|].
  split; [exact Hgens|]. split; [exact Hrest|].
  intros resumed Hperm. rewrite createAsync_resume_all_spec. cbn [fst].
  split; [reflexivity|]. split.
  - rewrite length_app, length_fmap. now rewrite (Permutation_length Hperm).
  - rewrite drop_app_length. apply Forall_fmap, Forall_forall.
    intros seed _. reflexivity.
Qed.

(** X8: creating an object never disturbs a live one.  For every object
    that has a generator, [Prng.create] and [Prng.createAsync], whether
    they return or throw, leave that generator as it was, and the object
    they return is never one with the same instance and handle. *)
Theorem Prng_create_keeps_objects ok seed reg w (g : G) :
  generator_of w reg = Some g ->
  generator_of w (fst (Prng_create seed reg)) = Some g /\
  snd (Prng_create seed reg) <> Returned w /\
  generator_of w (fst (Prng_createAsync ok seed reg)) = Some g /\
  snd (Prng_createAsync ok seed reg) <> Returned w.
Proof.
  intros Hlive.
  destruct (scan_instances_keeps seed reg w g Hlive) as [Hkeep Hne].
  pose proof (scan_instances_length seed reg 0) as Hlen.
  pose proof (generator_of_lt w reg g Hlive) as Hlt.
  unfold Prng_create, Prng_createAsync.
  destruct (scan_instances seed reg 0) as [reg' [w'|]]; cbn [fst snd] in *.
  - repeat split; trivial; intros [= ->]; now apply Hne.
  - split; [exact Hkeep|]. split; [discriminate|].
    destruct ok.
    + rewrite createAsync_resume_fresh. cbn [fst snd].
      rewrite generator_of_app_l by lia.
      split; [exact Hkeep|]. intros [= Hw]. rewrite <- Hw in Hlt.
      cbn [instance] in Hlt. lia.
    + split; [exact Hkeep | discriminate].
Qed.

(** *** The wrapper over one module *)

(** X9: the constructor of the first wrapper is [Prng.create] on a registry
    of one module.  For every pool and seed, either both return the object
    with the handle of the pool's first [null] slot and leave the same
    pool, or the pool is full, both throw and the pool is unchanged. *)
Theorem Single_constructor_is_create seed (p : Pool G) :
  (exists h,
      0 <= h <= 255 /\ h = snd (create (seed_u64 seed) p) /\
      Single.constructor seed p =
        (fst (create (seed_u64 seed) p), Single.Object h) /\
      Prng_create seed [p] =
        ([fst (create (seed_u64 seed) p)],
         Returned {| instance := 0; handle := h |}))
  \/ (full p /\
      Single.constructor seed p = (p, Single.MaxInstancesReached) /\
      Prng_create seed [p] = ([p], Thrown NoSlotsAvailable)).
Proof.
  unfold Single.constructor, Prng_create. cbn [scan_instances].
  destruct (create_cases (seed_u64 seed) p)
    as [(j & Hj & _ & _ & Heq)|[Hfull Heq]]; rewrite Heq.
  - left. exists (Z.of_nat j). cbn [fst snd]. unfold MAX_INSTANCES in Hj.
    split; [lia|]. split; [reflexivity|].
    destruct (Z.ltb_spec (Z.of_nat j) 0); [lia|].
    destruct (Z.leb_spec 0 (Z.of_nat j)); [|lia].
    split; reflexivity.
  - right. split; [exact Hfull|]. split; reflexivity.
Qed.


(** *** Sequential expansion *)

(** The registries that calls of [createAsync] awaited one after the other
    build: full pools, then one pool filled from the front. *)
Lemma createAsync_all_packed (seeds : list Z) : forall (fulls : list (Pool G)) (gs : list G),
  Forall full fulls -> (length gs <= MAX_INSTANCES)%nat ->
  exists fulls' gs' ws,
    createAsync_all seeds (fulls ++ [pool_of gs]) =
      (fulls' ++ [pool_of gs'], Returned ws) /\
    Forall full fulls' /\ (length gs' <= MAX_INSTANCES)%nat /\
    (seeds <> [] -> (1 <= length gs')%nat) /\
    (seeds = [] -> fulls' = fulls /\ gs' = gs) /\
    (MAX_INSTANCES * length fulls' + length gs' =
     MAX_INSTANCES * length fulls + length gs + length seeds)%nat /\
    length ws = length seeds.
Proof.
  induction seeds as [|seed seeds IH]; intros fulls gs Hall Hle.
  - exists fulls, gs, []. simpl.
    split; [reflexivity|]. split; [exact Hall|]. split; [exact Hle|].
    split; [congruence|]. split; [auto|]. split; [lia | reflexivity].
  - cbn [createAsync_all].
    destruct (decide (length gs < MAX_INSTANCES)%nat) as [Hlt|Hge].
    + rewrite (Prng_createAsync_room seed fulls gs Hall Hlt).
      destruct (IH fulls (gs ++ [init (seed_u64 seed)]) Hall)
        as (fulls' & gs' & ws & -> & Hall' & Hle' & Hpos & Hnil & Hcount & Hws).
      { rewrite length_app. simpl. lia. }
      exists fulls', gs', ({| instance := length fulls;
                             handle := Z.of_nat (length gs) |} :: ws).
      rewrite length_app in Hcount. cbn [length] in Hcount.
      split; [reflexivity|]. split; [exact Hall'|]. split; [exact Hle'|].
      split.
      { intros _. destruct seeds as [|seed' seeds]; [|apply Hpos; discriminate].
        destruct (Hnil eq_refl) as [_ ->]. rewrite length_app. simpl. lia. }
      split; [discriminate|]. cbn [length].
      unfold MAX_INSTANCES in *. split; lia.
    + assert (Hfulls : Forall full (fulls ++ [pool_of gs])).
      { apply Forall_app. split; [exact Hall|]. constructor; [|constructor].
        apply pool_of_full. lia. }
      rewrite (Prng_createAsync_full true seed _ Hfulls).
      rewrite createAsync_resume_fresh.
      destruct (IH (fulls ++ [pool_of gs]) [init (seed_u64 seed)] Hfulls)
        as (fulls' & gs' & ws & -> & Hall' & Hle' & Hpos & Hnil & Hcount & Hws).
      { simpl. unfold MAX_INSTANCES. lia. }
      exists fulls', gs', ({| instance := length (fulls ++ [pool_of gs]);
                             handle := 0 |} :: ws).
      rewrite length_app in Hcount. cbn [length] in Hcount.
      split; [reflexivity|]. split; [exact Hall'|]. split; [exact Hle'|].
      split.
      { intros _. destruct seeds as [|seed' seeds]; [|apply Hpos; discriminate].
        destruct (Hnil eq_refl) as [_ ->]. simpl. lia. }
      split; [discriminate|]. cbn [length].
      unfold MAX_INSTANCES in *. split; lia.
Qed.

(** X11: calls of [createAsync] awaited one after the other pack the
    modules.  On a freshly loaded module, for any seeds, every call returns
    an object, and after n >= 1 calls the registry has 1 + (n - 1) / 256
    modules, all full except possibly the last: a module is instantiated
    only by the call that follows 256, 512, ... allocations. *)
Theorem createAsync_all_packs (seeds : list Z) :
  exists fulls gs ws,
    createAsync_all seeds initial_registry =
      (fulls ++ [pool_of gs], Returned ws) /\
    length ws = length seeds /\
    Forall full fulls /\ (length gs <= 256)%nat /\
    (256 * length fulls + length gs = length seeds)%nat /\
    (seeds = [] \/
     length (fulls ++ [pool_of gs]) = S ((length seeds - 1) / 256)).
Proof.
  destruct (createAsync_all_packed seeds [] [])
    as (fulls & gs & ws & Heq & Hall & Hle & Hpos & _ & Hcount & Hws).
  { constructor. }
  { simpl. lia. }
  exists fulls, gs, ws. unfold MAX_INSTANCES in *. cbn [length] in Hcount.
  split; [exact Heq|]. split; [exact Hws|]. split; [exact Hall|].
  split; [exact Hle|]. split; [lia|].
  destruct seeds as [|seed seeds]; [now left | right].
  assert (Hgs : (1 <= length gs)%nat) by (apply Hpos; discriminate).
  rewrite length_app. cbn [length] in *.
  rewrite Nat.add_1_r. f_equal.
  apply (Nat.div_unique _ 256 _ (length gs - 1)); lia.
Qed.

(** *** What a new object draws from *)

(** X12: an object returned by either creation path draws from the
    generator seeded with its seed modulo 2^64.  Synchronous or not, and
    whatever the registry held, objects made with one seed start from the
    same generator. *)
Theorem Prng_created_generator ok seed reg reg' w :
  Prng_create seed reg = (reg', Returned w) \/
  Prng_createAsync ok seed reg = (reg', Returned w) ->
  generator_of w reg' = Some (init (seed_u64 seed)) /\
  0 <= handle w <= 255 /\ (instance w < length reg')%nat.
Proof.
  intros Hmade.
  assert (Hgen : generator_of w reg' = Some (init (seed_u64 seed))).
  { destruct Hmade as [Hsync|Hasync].
    - now apply (Prng_create_generator seed reg).
    - unfold Prng_createAsync in Hasync.
      destruct (scan_instances seed reg 0) as [reg1 [w1|]] eqn:Hscan.
      + apply (Prng_create_generator seed reg). unfold Prng_create.
        now rewrite Hscan.
      + destruct ok; [|discriminate].
        rewrite createAsync_resume_fresh in Hasync.
        injection Hasync as <- <-. unfold generator_of. cbn [instance handle].
        rewrite (list_lookup_middle reg1 [] _ (length reg1) eq_refl).
        reflexivity. }
  split; [exact Hgen|].
  pose proof (generator_of_lt w reg' _ Hgen) as Hlt.
  split; [|exact Hlt].
  unfold generator_of in Hgen.
  destruct (reg' !! instance w) as [inst|]; [|discriminate].
  apply occupant_Some in Hgen as [Hb _]. apply in_bounds_spec in Hb. lia.
Qed.


End RegistryMore.

(** ** The further properties on concrete runs *)

Module RunFacts2.

Import Xoshiro256 Run Run2.

(** A generator seeded with 100 in slot 0; a second allocation, seed 200,
    takes slot 1 and the first keeps its sequence. *)
Lemma create_preserves_live_witness :
  occupant 0 (pool_after_create 100) = Some (expand 100) /\
  occupant 0 (fst (create (R := lib) 200 (pool_after_create 100))) =
    Some (expand 100) /\
  snd (create (R := lib) 200 (pool_after_create 100)) <> 0.
Proof.
  assert (Hocc : occupant 0 (pool_after_create 100) = Some (expand 100))
    by (vm_compute; reflexivity).
  split; [exact Hocc|].
  destruct (create_preserves_live (R := lib) 200 0 (expand 100)
              (pool_after_create 100) mixed_draws Hocc) as (Hkeep & Hne & _).
  split; [exact Hkeep | exact Hne].
Defined.

(** A full pool: handle 10 is released and the next [create] returns 10. *)
Lemma create_after_destroy_reuses_witness :
  well_formed (pool_of (replicate 256 (expand 0))) /\ 0 <= 10 < 256 /\
  0 <= snd (create (R := lib) 1000
              (destroy 10 (pool_of (replicate 256 (expand 0))))) <= 10.
Proof.
  assert (Hwf : well_formed (pool_of (replicate 256 (expand 0))))
    by (vm_compute; reflexivity).
  assert (Hh : 0 <= 10 < 256) by lia.
  split; [exact Hwf|]. split; [exact Hh|].
  exact (proj1 (create_after_destroy_reuses (R := lib) 1000 10
                  (pool_of (replicate 256 (expand 0))) Hwf Hh)).
Defined.

(** A pool with 255 generators: one more is granted. *)
Lemma live_generators_capacity_witness :
  well_formed pool_255 /\ (live pool_255 <= 256)%nat.
Proof.
  assert (Hwf : well_formed pool_255) by (vm_compute; reflexivity).
  split; [exact Hwf|].
  exact (proj1 (live_generators_capacity (R := lib) 7 pool_255 Hwf)).
Defined.

(** Two objects on slots 0 and 1 of one module: destroying the first
    leaves the second its generator. *)
Lemma Prng_methods_isolated_witness :
  rng_a <> rng_b /\ (instance rng_a < length registry_two)%nat /\
  exists reg',
    Prng_destroy rng_a registry_two = Some reg' /\
    generator_of rng_b reg' = generator_of rng_b registry_two.
Proof.
  assert (Hne : rng_a <> rng_b) by discriminate.
  assert (Hlt : (instance rng_a < length registry_two)%nat)
    by (apply Nat.ltb_lt; vm_compute; reflexivity).
  split; [exact Hne|]. split; [exact Hlt|].
  exact (proj2 (proj2 (proj2 (Prng_methods_isolated (R := lib)
                                registry_two rng_a rng_b 10 20 Hne Hlt)))).
Defined.

(** A third object is created while the first is live. *)
Lemma Prng_create_keeps_objects_witness :
  generator_of rng_a registry_two = Some (expand 100) /\
  generator_of rng_a (fst (Prng_create (R := lib) 300 registry_two)) =
    Some (expand 100).
Proof.
  assert (Hlive : generator_of rng_a registry_two = Some (expand 100))
    by (vm_compute; reflexivity).
  split; [exact Hlive|].
  exact (proj1 (Prng_create_keeps_objects (R := lib) true 300 registry_two
                  rng_a (expand 100) Hlive)).
Defined.

(** [Prng.create(111)], [destroy()], [Prng.create(222)] on a freshly loaded
    module. *)
Lemma Prng_create_after_destroy_witness :
  Prng_create (R := lib) 111 initial_registry =
    (fst (Prng_create (R := lib) 111 initial_registry), Returned rng) /\
  Prng_destroy rng (fst (Prng_create (R := lib) 111 initial_registry)) =
    Some initial_registry.
Proof.
  assert (Hcreate : Prng_create (R := lib) 111 initial_registry =
            (fst (Prng_create (R := lib) 111 initial_registry), Returned rng))
    by (vm_compute; reflexivity).
  split; [exact Hcreate|].
  exact (proj1 (Prng_create_after_destroy (R := lib) 111 222 initial_registry
                  _ rng Hcreate)).
Defined.

(** [createAsync(999)] on a registry of one full module: the object is in a
    second module and draws from the generator seeded with 999. *)
Lemma Prng_created_generator_witness :
  (Prng_create (R := lib) 999 full_registry =
     (fst (Prng_createAsync (R := lib) true 999 full_registry),
      Returned {| instance := 1; handle := 0 |}) \/
   Prng_createAsync (R := lib) true 999 full_registry =
     (fst (Prng_createAsync (R := lib) true 999 full_registry),
      Returned {| instance := 1; handle := 0 |})) /\
  generator_of {| instance := 1; handle := 0 |}
    (fst (Prng_createAsync (R := lib) true 999 full_registry)) =
    Some (expand 999).
Proof.
  assert (Hmade :
    Prng_create (R := lib) 999 full_registry =
      (fst (Prng_createAsync (R := lib) true 999 full_registry),
       Returned {| instance := 1; handle := 0 |}) \/
    Prng_createAsync (R := lib) true 999 full_registry =
      (fst (Prng_createAsync (R := lib) true 999 full_registry),
       Returned {| instance := 1; handle := 0 |}))
    by (right; vm_compute; reflexivity).
  split; [exact Hmade|].
  exact (proj1 (Prng_created_generator (R := lib) true 999 full_registry
                  _ _ Hmade)).
Defined.


End RunFacts2.
